(* ===================================================================== *)
(* copri: factoring into coprimes (Bernstein's algorithms 10.1 - 21.2).   *)
(* A shallow embedding of src/copri.c and the verification of its         *)
(* specification.                                                         *)
(*                                                                        *)
(* Modelling conventions                                                  *)
(*  - an mpz_t holds a non-negative big integer: nat, with ssrnat's       *)
(*    muln, gcdn, divn, modn standing for mpz_mul, mpz_gcd, mpz_fdiv_q,   *)
(*    mpz_fdiv_r (the last two fault on a zero divisor, as GMP does);     *)
(*  - an mpz_array is the sequence of its used slots: seq nat;            *)
(*  - pool_pop/pool_push only hand out scratch integers that are always   *)
(*    written before they are read, so the pool does not appear;          *)
(*  - size_t and int indices are nat: every call keeps from <= to, and    *)
(*    the shift 1 << i of bit() is exact as long as i < 31, that is for   *)
(*    arrays of fewer than 2^31 slots;                                    *)
(*  - cb is the sequential build (the OpenMP sections run the same two    *)
(*    calls on arrays and pools of their own);                            *)
(*  - while(1) loops and recursion take a fuel argument and return a      *)
(*    result: Ret v, OutOfFuel (more iterations needed) or Fault.         *)
(* ===================================================================== *)

From mathcomp Require Import boot.
From Stdlib Require Import Lia.

Set Implicit Arguments.
Unset Strict Implicit.
Unset Printing Implicit Defensive.

(* --------------------------------------------------------------------- *)
(* Results of fallible, possibly diverging code                           *)
(* --------------------------------------------------------------------- *)

Inductive result (A : Type) : Type :=
  | Ret of A
  | OutOfFuel
  | Fault.

Arguments OutOfFuel {A}.
Arguments Fault {A}.

Definition bind (A B : Type) (m : result A) (k : A -> result B) : result B :=
  match m with
  | Ret v => k v
  | OutOfFuel => OutOfFuel
  | Fault => Fault
  end.

Notation "x <- m ;; k" := (bind m (fun x => k))
  (at level 61, m at next level, right associativity).
Notation "' p <- m ;; k" := (bind m (fun x => let: p := x in k))
  (at level 61, p pattern, m at next level, right associativity).

(* [returns run v]: the computation [run], indexed by its fuel, yields [v]
   as soon as the fuel is large enough. *)
Definition returns (A : Type) (run : nat -> result A) (v : A) : Prop :=
  exists F, forall f, F <= f -> run f = Ret v.

(* [diverges run]: no amount of fuel is enough. *)
Definition diverges (A : Type) (run : nat -> result A) : Prop :=
  forall f, run f = OutOfFuel.

(* --------------------------------------------------------------------- *)
(* The big-integer backend and the arrays                                 *)
(* --------------------------------------------------------------------- *)

Definition mpz_fdiv_q (n d : nat) : result nat :=
  if d == 0 then Fault else Ret (n %/ d).

Definition mpz_fdiv_r (n d : nat) : result nat :=
  if d == 0 then Fault else Ret (n %% d).

(** Modelled from the spec: the array helpers of array.c are not part of the
    sources at hand; an IntArray "supports append, in-place clear, and bulk
    append from another array". *)
Definition array_add (a : seq nat) (i : nat) : seq nat := rcons a i.

(** Modelled from the spec: bulk append of the dynamic array (array.c). *)
Definition array_add_array (a b : seq nat) : seq nat := a ++ b.

(* Reading slot [i] of a raw mpz_t* that holds the integers of [a]. *)
Definition array_get (a : seq nat) (i : nat) : result nat :=
  if i < size a then Ret (nth 0 a i) else Fault.

(* --------------------------------------------------------------------- *)
(* Algorithm 10.1: two_power                                              *)
(* --------------------------------------------------------------------- *)

Fixpoint two_power (rot n : nat) : nat :=
  if n is n'.+1 then two_power (rot * rot) n' else rot.

(* --------------------------------------------------------------------- *)
(* Algorithm 11.3: gcd_ppi_ppo, and its shortcuts                         *)
(* --------------------------------------------------------------------- *)

Fixpoint gcd_ppi_ppo_loop (fuel ppi ppo : nat) : result (nat * nat) :=
  if fuel is f.+1 then
    let g := gcdn ppi ppo in
    if g == 1 then Ret (ppi, ppo)
    else ppo' <- mpz_fdiv_q ppo g ;;
         gcd_ppi_ppo_loop f (ppi * g) ppo'
  else OutOfFuel.

(* returns (gcd, ppi, ppo) *)
Definition gcd_ppi_ppo (fuel a b : nat) : result (nat * nat * nat) :=
  let ppi := gcdn a b in
  let gcd := ppi in
  ppo <- mpz_fdiv_q a ppi ;;
  '(ppi', ppo') <- gcd_ppi_ppo_loop fuel ppi ppo ;;
  Ret (gcd, ppi', ppo').

Definition ppi_ppo (fuel a c : nat) : result (nat * nat) :=
  '(_, i, o) <- gcd_ppi_ppo fuel a c ;; Ret (i, o).

Definition ppi (fuel a c : nat) : result nat :=
  '(_, i, _) <- gcd_ppi_ppo fuel a c ;; Ret i.

(* --------------------------------------------------------------------- *)
(* Algorithm 11.4: gcd_ppg_pple                                           *)
(* --------------------------------------------------------------------- *)

Fixpoint gcd_ppg_pple_loop (fuel ppg pple : nat) : result (nat * nat) :=
  if fuel is f.+1 then
    let g := gcdn ppg pple in
    if g == 1 then Ret (ppg, pple)
    else pple' <- mpz_fdiv_q pple g ;;
         gcd_ppg_pple_loop f (ppg * g) pple'
  else OutOfFuel.

(* returns (gcd, ppg, pple) *)
Definition gcd_ppg_pple (fuel a b : nat) : result (nat * nat * nat) :=
  let pple := gcdn a b in
  let gcd := pple in
  ppg <- mpz_fdiv_q a pple ;;
  '(ppg', pple') <- gcd_ppg_pple_loop fuel ppg pple ;;
  Ret (gcd, ppg', pple').

(* --------------------------------------------------------------------- *)
(* Algorithm 13.2: append_cb                                              *)
(* --------------------------------------------------------------------- *)

(* Steps 7 to 12; [rec] is the recursive call of step 11.  The loop hands
   back the array and the accumulated x. *)
Fixpoint append_cb_loop (rec : seq nat -> nat -> nat -> result (seq nat))
    (fuel : nat) (out : seq nat) (b g h x n : nat) : result (seq nat * nat) :=
  if fuel is f.+1 then
    let b1 := g * g in
    let b2 := h in
    '(g', h', c) <- gcd_ppg_pple f b2 b1 ;;
    let d := gcdn c b in
    let x' := x * d in
    let y := two_power d (n - 1) in
    b1' <- mpz_fdiv_q c y ;;
    out' <- rec out b1' d ;;
    if h' == 1 then Ret (out', x')
    else append_cb_loop rec f out' b g' h' x' n.+1
  else OutOfFuel.

Fixpoint append_cb (fuel : nat) (out : seq nat) (a b : nat) : result (seq nat) :=
  if fuel is f.+1 then
    if b == 1 then Ret (if a != 1 then array_add out a else out)
    else
      '(a1, r) <- ppi_ppo f a b ;;
      let out1 := if r != 1 then array_add out r else out in
      '(g, h, c) <- gcd_ppg_pple f a1 b ;;
      let c0 := c in
      let x := c0 in
      '(out2, x') <- append_cb_loop (append_cb f) f out1 b g h x 1 ;;
      b1 <- mpz_fdiv_q b x' ;;
      append_cb f out2 b1 c0
  else OutOfFuel.

(* --------------------------------------------------------------------- *)
(* Algorithms 14.1 and 15.3: prod and split                               *)
(* --------------------------------------------------------------------- *)

Fixpoint prod (fuel : nat) (array : seq nat) (from to : nat) : result nat :=
  if fuel is f.+1 then
    let n := to - from in
    if n == 0 then array_get array from
    else x <- prod f array from (to - n %/ 2 - 1) ;;
         y <- prod f array (to - n %/ 2) to ;;
         Ret (x * y)
  else OutOfFuel.

Definition array_prod (fuel : nat) (a : seq nat) : result nat :=
  if 0 < size a then prod fuel a 0 (size a - 1) else Ret 1.

Fixpoint split (fuel : nat) (ret : seq nat) (a : nat) (p : seq nat)
    (from to : nat) : result (seq nat) :=
  if fuel is f.+1 then
    let n := to - from in
    x <- prod f p from to ;;
    b <- ppi f a x ;;
    if n == 0 then Ret (array_add ret b)
    else ret' <- split f ret b p from (to - n %/ 2 - 1) ;;
         split f ret' b p (to - n %/ 2) to
  else OutOfFuel.

(* On an empty array a diagnostic is printed and nothing is appended. *)
Definition array_split (fuel : nat) (ret : seq nat) (a : nat) (p : seq nat)
    : result (seq nat) :=
  if 0 < size p then split fuel ret a p 0 (size p - 1) else Ret ret.

(* --------------------------------------------------------------------- *)
(* Algorithm 16.2: cbextend                                               *)
(* --------------------------------------------------------------------- *)

(* for (i = 0; i < p->used; i++) append_cb(pool, ret, p[i], s[i]);
   [k] counts the iterations that remain. *)
Fixpoint cbextend_for (fuel : nat) (ret p s : seq nat) (i k : nat)
    : result (seq nat) :=
  if k is k'.+1 then
    ret' <- append_cb fuel ret (nth 0 p i) (nth 0 s i) ;;
    cbextend_for fuel ret' p s i.+1 k'
  else Ret ret.

Definition cbextend (fuel : nat) (ret p : seq nat) (b : nat) : result (seq nat) :=
  let ret1 :=
    if size p == 0 then (if b != 1 then array_add ret b else ret) else ret in
  x <- array_prod fuel p ;;
  '(a, r) <- ppi_ppo fuel b x ;;
  let ret2 := if r != 1 then array_add ret1 r else ret1 in
  s <- array_split fuel [::] a p ;;
  if size p != size s then Ret ret2
  else cbextend_for fuel ret2 p s 0 (size p).

(* --------------------------------------------------------------------- *)
(* Algorithm 17.3: cbmerge                                                *)
(* --------------------------------------------------------------------- *)

(* k & (1 << i) is nonzero exactly when bit i of k is set. *)
Definition bit (i k : nat) : bool := odd (k %/ 2 ^ i).

(* for (k = 0; k < n; k++) if (bit(i,k) == want) array_add(&r, q[k]);
   [k] is the index of the head of [q]. *)
Fixpoint select_bit (want : bool) (i k : nat) (q : seq nat) : seq nat :=
  if q is x :: q' then
    if bit i k == want then x :: select_bit want i k.+1 q'
    else select_bit want i k.+1 q'
  else [::].

(* do { b++; x = 2^b; } while (x < n); *)
Fixpoint cbmerge_b (fuel n b : nat) : result nat :=
  if fuel is f.+1 then
    let b' := b.+1 in
    let x := 2 ^ b' in
    if x < n then cbmerge_b f n b' else Ret b'
  else OutOfFuel.

Fixpoint cbmerge_loop (fuel : nat) (s q : seq nat) (b i : nat)
    : result (seq nat) :=
  if fuel is f.+1 then
    if i == b then Ret s
    else
      x0 <- array_prod f (select_bit false i 0 q) ;;
      t <- cbextend f [::] s x0 ;;
      x1 <- array_prod f (select_bit true i 0 q) ;;
      s' <- cbextend f [::] t x1 ;;
      cbmerge_loop f s' q b i.+1
  else OutOfFuel.

(* [s] is the caller's array; its final contents are returned. *)
Definition cbmerge (fuel : nat) (s p q : seq nat) : result (seq nat) :=
  let n := size q in
  b <- cbmerge_b fuel n 0 ;;
  cbmerge_loop fuel (array_add_array s p) q b 0.

(* --------------------------------------------------------------------- *)
(* Algorithm 18.1: cb (the sequential build)                              *)
(* --------------------------------------------------------------------- *)

Fixpoint cb (fuel : nat) (ret s : seq nat) (from to : nat) : result (seq nat) :=
  if fuel is f.+1 then
    let n := to - from in
    if n == 0 then
      sf <- array_get s from ;;
      if sf == 0 then Ret ret
      else if sf != 1 then Ret (array_add ret sf) else Ret ret
    else
      p <- cb f [::] s from (to - n %/ 2 - 1) ;;
      q <- cb f [::] s (to - n %/ 2) to ;;
      if (size q != 0) && (size p != 0) then cbmerge f ret p q
      else if (size q == 0) && (size p != 0) then Ret (array_add_array ret p)
      else if (size q != 0) && (size p == 0) then Ret (array_add_array ret q)
      else Ret ret
  else OutOfFuel.

Definition array_cb (fuel : nat) (ret s : seq nat) : result (seq nat) :=
  if 0 < size s then cb fuel ret s 0 (size s - 1) else Ret ret.

(* --------------------------------------------------------------------- *)
(* Algorithm 19.2: reduce                                                 *)
(* --------------------------------------------------------------------- *)

(* returns (i, pai) *)
Fixpoint reduce (fuel p a : nat) : result (nat * nat) :=
  if fuel is f.+1 then
    r <- mpz_fdiv_r a p ;;
    if r != 0 then Ret (0, a)
    else
      let p2 := p * p in
      a2 <- mpz_fdiv_q a p ;;
      '(j, b) <- reduce f p2 a2 ;;
      r' <- mpz_fdiv_r b p ;;
      if r' == 0 then
        b' <- mpz_fdiv_q b p ;;
        Ret (j * 2 + 2, b')
      else Ret (j * 2 + 1, b)
  else OutOfFuel.

(* --------------------------------------------------------------------- *)
(* Algorithm 20.1: find_factor                                            *)
(* --------------------------------------------------------------------- *)

(* returns the output array and the int result r (true for 1) *)
Fixpoint find_factor (fuel : nat) (out : seq nat) (a0 a : nat) (p : seq nat)
    (from to : nat) : result (seq nat * bool) :=
  if fuel is f.+1 then
    let n := to - from in
    if n == 0 then
      pf <- array_get p from ;;
      '(_, c) <- reduce f pf a ;;
      if c != 1 then Ret (out, false)
      else if a0 != pf then
        y <- mpz_fdiv_q a0 pf ;;
        Ret (array_add (array_add (array_add out a0) pf) y, false)
      else Ret (out, true)
    else
      y <- prod f p from (to - n %/ 2 - 1) ;;
      '(b, c2) <- ppi_ppo f a y ;;
      '(out1, r1) <- find_factor f out a0 b p from (to - n %/ 2 - 1) ;;
      if ~~ r1 then Ret (out1, false)
      else
        '(out2, r2) <- find_factor f out1 a0 c2 p (to - n %/ 2) to ;;
        if ~~ r2 then Ret (out2, false) else Ret (out2, true)
  else OutOfFuel.

Definition array_find_factor (fuel : nat) (out : seq nat) (a : nat)
    (p : seq nat) : result (seq nat * bool) :=
  if 0 < size p then find_factor fuel out a a p 0 (size p - 1)
  else Ret (out, false).

(* --------------------------------------------------------------------- *)
(* Algorithm 21.2: find_factors                                           *)
(* --------------------------------------------------------------------- *)

(* for (i = 0; i < p->used; i++)
     if (mpz_cmp(d.array[i], p->array[i]) == 0) array_add(&q, p->array[i]);
   [k] counts the iterations that remain. *)
Fixpoint find_factors_live (d p : seq nat) (i k : nat) (q : seq nat)
    : result (seq nat) :=
  if k is k'.+1 then
    di <- array_get d i ;;
    pi <- array_get p i ;;
    find_factors_live d p i.+1 k' (if di == pi then array_add q pi else q)
  else Ret q.

(* The int handed back by array_find_factor is dropped. *)
Fixpoint find_factors (fuel : nat) (out s : seq nat) (from to : nat)
    (p : seq nat) : result (seq nat) :=
  if fuel is f.+1 then
    let n := to - from in
    x <- array_prod f p ;;
    y <- prod f s from to ;;
    z <- ppi f x y ;;
    d <- array_split f [::] z p ;;
    q <- find_factors_live d p 0 (size p) [::] ;;
    if n == 0 then
      '(out', _) <- array_find_factor f out y q ;; Ret out'
    else
      out1 <- find_factors f out s from (to - n %/ 2 - 1) q ;;
      find_factors f out1 s (to - n %/ 2) to q
  else OutOfFuel.

Definition array_find_factors (fuel : nat) (out s p : seq nat)
    : result (seq nat) :=
  if 0 < size s then find_factors fuel out s 0 (size s - 1) p else Ret out.


(* ===================================================================== *)
(* Vocabulary of the specification                                        *)
(* ===================================================================== *)

(* A fuelled computation is monotone when more fuel never changes a result
   that was already reached. *)
Definition monotone (A : Type) (run : nat -> result A) : Prop :=
  forall f g v, f <= g -> run f = Ret v -> run g = Ret v.

(* The primes whose power in a exceeds their power in b. *)
Definition gt_primes (a b : nat) : nat_pred :=
  [pred p | logn p b < logn p a].

Definition ppg_of (a b : nat) : nat := a`_(gt_primes a b).
Definition pple_of (a b : nat) : nat := a`_(gt_primes a b)^'.

(* The slots from .. to of an array, both ends included. *)
Definition slice (from to : nat) (p : seq nat) : seq nat :=
  take (to.+1 - from) (drop from p).

Definition positive (s : seq nat) : bool := all (leq 1) s.

(* The products of powers of elements of B. *)
Inductive span (B : seq nat) : nat -> Prop :=
  | span_one : span B 1
  | span_mul x y : x \in B -> span B y -> span B (x * y).

(* A list of pairwise coprime integers, all >= 2. *)
Definition coprime_base (B : seq nat) : bool :=
  all (leq 2) B && pairwise coprime B.

(* L is a coprime base for {a, b} made of divisors of powers of a * b. *)
Definition cb_pair (L : seq nat) (a b : nat) : Prop :=
  [/\ coprime_base L, span L a, span L b & all (pnat \pi(a * b)) L].

(* The state of the loop of append_cb before iteration m + 1: on every
   prime of h, g holds the 2^m-th power of b's prime power, which is still
   below that of h. *)
Definition loop_inv (b m g h : nat) : Prop :=
  [/\ 0 < g, 0 < h &
      forall p, prime p -> p %| h ->
        [/\ 0 < logn p b, logn p g = 2 ^ m * logn p b
          & 2 ^ m * logn p b < logn p h]].

(* What the loop of append_cb, entered with h, appends: a coprime base on
   the primes of h that spans h and gcd(h, b). *)
Definition loop_list (L : seq nat) (h b : nat) : Prop :=
  [/\ coprime_base L, all (pnat \pi(h)) L, span L h & span L (gcdn h b)].

(* The loop run from a state, with enough fuel for it and for its calls. *)
Definition loop_returns (L : seq nat) (b m g h : nat) : Prop :=
  forall out x, exists F, forall fr fl, F <= fr -> F <= fl ->
    append_cb_loop (append_cb fr) fl out b g h x m.+1
    = Ret (out ++ L, x * gcdn h b).

(* The for loop of cbextend seen as a traversal of the pairs (P[i], S[i]). *)
Fixpoint cbextend_zip (fuel : nat) (ret : seq nat) (ps : seq (nat * nat))
    : result (seq nat) :=
  if ps is (x, y) :: ps' then
    ret' <- append_cb fuel ret x y ;; cbextend_zip fuel ret' ps'
  else Ret ret.

(* Ls lists, pair by pair, coprime bases of the pairs ps. *)
Fixpoint cb_pairs (Ls : seq (seq nat)) (ps : seq (nat * nat)) : Prop :=
  match Ls, ps with
  | [::], [::] => True
  | L :: Ls', (x, y) :: ps' => cb_pair L x y /\ cb_pairs Ls' ps'
  | _, _ => False
  end.

(* What cbextend appends for a base P and a value b. *)
Definition cbextend_list (P : seq nat) (b : nat) (Ls : seq (seq nat))
    : seq nat :=
  (if P is [::] then (if b != 1 then [:: b] else [::]) else [::])
  ++ (if b`_\pi(\prod_(x <- P) x)^' != 1
      then [:: b`_\pi(\prod_(x <- P) x)^'] else [::])
  ++ flatten Ls.

(* The slots of q, numbered from k, whose number satisfies keep. *)
Fixpoint sel (keep : pred nat) (k : nat) (q : seq nat) : seq nat :=
  if q is x :: q' then
    if keep k then x :: sel keep k.+1 q' else sel keep k.+1 q'
  else [::].

(* k' has the same i low bits as k. *)
Definition agree (i k : nat) : pred nat :=
  fun k' => all (fun j => bit j k' == bit j k) (iota 0 i).

(* The state of the loop of cbmerge before round i: s is a nonempty coprime
   base that spans P and, once a round is done, the product of the q_k'
   whose index agrees with k on the i low bits, for every k. *)
Definition merge_inv (P Q s : seq nat) (i : nat) : Prop :=
  [/\ coprime_base s, s != [::], forall p, p \in P -> span s p
    & 0 < i -> forall k, span s (\prod_(x <- sel (agree i k) 0 Q) x)].

(* What find_factor hands back when a is a product of powers of the slots
   from .. to of a coprime base. *)
Definition ff_result (out : seq nat) (a0 : nat) (P : seq nat) (from to : nat)
    : seq nat * bool :=
  if a0 != nth 0 P from then
    (out ++ [:: a0; nth 0 P from; a0 %/ nth 0 P from], false)
  else if from == to then (out, true)
  else (out ++ [:: a0; nth 0 P from.+1; a0 %/ nth 0 P from.+1], false).

(* The triple find_factors emits for s over the base P: the first element
   of P that divides s, unless it is s itself. *)
Definition factor_triple (P : seq nat) (s : nat) : seq nat :=
  if filter (fun p => p %| s) P is p :: _ then
    if s != p then [:: s; p; s %/ p] else [::]
  else [::].

(* The nonzero slots of an array. *)
Definition nonzero (s : seq nat) : seq nat := filter (fun x => x != 0) s.

(* t is what one element s of the input may add to the output of
   find_factors over the base P: nothing, or one triple on an element of
   P. *)
Definition triple_of (P : seq nat) (s : nat) (t : seq nat) : bool :=
  (t == [::]) || has (fun p => t == [:: s; p; s %/ p]) P.

(* Linear arithmetic on ssrnat goals, through lia. *)
Ltac nat_lia :=
  intros;
  match goal with
  | |- is_true (_ <= _) => apply/leP
  | |- is_true (_ == _) => apply/eqP
  | |- _ => idtac
  end;
  repeat match goal with
  | H : is_true (_ <= _) |- _ => revert H; move/leP
  | H : is_true (_ == _) |- _ => revert H; move/eqP
  | H : is_true (_ != _) |- _ => revert H; move/eqP
  | H : @eq nat _ _ |- _ => revert H
  end;
  rw -?plusE -?minusE -?multE; lia.

(* ===================================================================== *)
(* Generalities on results                                                *)
(* ===================================================================== *)

Section Returns.

Variable A : Type.
Implicit Types (run : nat -> result A) (v w : A).

Lemma returns_inj run v w : returns run v -> returns run w -> v = w.
Proof.
move=> [F1 H1] [F2 H2].
have := H1 (maxn F1 F2) (leq_maxl _ _).
by rw (H2 _ (leq_maxr _ _)); case.
Qed.

End Returns.

Lemma fdiv_qE n d : 0 < d -> mpz_fdiv_q n d = Ret (n %/ d).
Proof. by rw /mpz_fdiv_q; case: d. Qed.

Lemma fdiv_rE n d : 0 < d -> mpz_fdiv_r n d = Ret (n %% d).
Proof. by rw /mpz_fdiv_r; case: d. Qed.

(* ===================================================================== *)
(* The two prime-power loops                                              *)
(* ===================================================================== *)

Lemma gcd_ppg_pple_loopE f u v :
  gcd_ppg_pple_loop f u v = gcd_ppi_ppo_loop f u v.
Proof. by elim: f u v => //= f IH u v; rw IH. Qed.

(* The loop moves into u every prime power of v whose prime divides u. *)
Lemma pp_loop_spec v u : 0 < u -> 0 < v ->
  returns (fun f => gcd_ppi_ppo_loop f u v)
          ((u * v)`_\pi(u), (u * v)`_\pi(u)^').
Proof.
elim: v {-2}v (leqnn v) u => [|k IH] v.
  by rw leqn0 => /eqP->.
move=> le_v u u_gt0 v_gt0.
have [cop|ncop] := boolP (gcdn u v == 1).
  exists 1 => -[|f] //= _; rw cop.
  have v_pi' : \pi(u)^'.-nat v by rw -coprime_pi'.
  rw !partnM // partn_pi // (part_p'nat v_pi') muln1.
  rw (@part_p'nat _ u) ?pnatNK ?pnat_pi //.
  by rw (part_pnat_id v_pi') mul1n.
set g := gcdn u v.
have g_gt0 : 0 < g by rw gcdn_gt0 u_gt0.
have g_gt1 : 1 < g by rw ltn_neqAle eq_sym ncop.
have gu : g %| u by apply: dvdn_gcdl.
have gv : g %| v by apply: dvdn_gcdr.
have vg_gt0 : 0 < v %/ g by rw divn_gt0 // dvdn_leq.
have vg_lt : v %/ g <= k.
  by rw -ltnS; apply: leq_trans le_v; rw ltn_Pdiv.
have ug_gt0 : 0 < u * g by rw muln_gt0 u_gt0.
have [F] := IH _ vg_lt (u * g) ug_gt0 vg_gt0.
rw -mulnA (@mulnC g) (divnK gv) => HF.
have eq_pi : \pi(u * g) =i \pi(u).
  move=> p; rw pi_ofM // inE /= orbC.
  by case: (boolP (p \in \pi(g))) => // /(pi_of_dvd gu u_gt0) ->.
exists F.+1 => -[|f] //; rw ltnS => le_f /=.
rw -/g (negbTE ncop) fdiv_qE //= HF //.
by rw (eq_partn _ eq_pi) (eq_partn _ (eq_negn eq_pi)).
Qed.

Lemma returns_at (A : Type) (run : nat -> result A) f v :
  monotone run -> run f = Ret v -> returns run v.
Proof. by move=> mono E; exists f => g le_fg; apply: mono E. Qed.

Lemma gcd_ppi_ppo_loop_mono u v : monotone (fun f => gcd_ppi_ppo_loop f u v).
Proof.
move=> f; elim: f u v => [|f IH] u v [|g] w //=; rw ltnS => le_fg.
case: ifP => // _; case: (mpz_fdiv_q _ _) => //= x.
exact: IH.
Qed.

Lemma gcd_ppi_ppo_mono a b : monotone (fun f => gcd_ppi_ppo f a b).
Proof.
move=> f g w le_fg; rw /gcd_ppi_ppo; case: (mpz_fdiv_q _ _) => //= x.
case E: (gcd_ppi_ppo_loop f _ _) => [[i o]||] //=.
by rw (gcd_ppi_ppo_loop_mono le_fg E).
Qed.

Lemma ppi_ppo_mono a b : monotone (fun f => ppi_ppo f a b).
Proof.
move=> f g w le_fg; rw /ppi_ppo.
case E: (gcd_ppi_ppo f _ _) => [[[d i] o]||] //=.
by rw (gcd_ppi_ppo_mono le_fg E).
Qed.

Lemma ppi_mono a b : monotone (fun f => ppi f a b).
Proof.
move=> f g w le_fg; rw /ppi.
case E: (gcd_ppi_ppo f _ _) => [[[d i] o]||] //=.
by rw (gcd_ppi_ppo_mono le_fg E).
Qed.

Lemma gcd_ppg_pple_mono a b : monotone (fun f => gcd_ppg_pple f a b).
Proof.
move=> f g w le_fg; rw /gcd_ppg_pple; case: (mpz_fdiv_q _ _) => //= x.
rw !gcd_ppg_pple_loopE.
case E: (gcd_ppi_ppo_loop f _ _) => [[i o]||] //=.
by rw (gcd_ppi_ppo_loop_mono le_fg E).
Qed.

(* --------------------------------------------------------------------- *)
(* What the two decompositions compute                                    *)
(* --------------------------------------------------------------------- *)

Lemma pi_gcd_in a b : 0 < a -> 0 < b ->
  {in \pi(a), \pi(gcdn a b) =i \pi(b)}.
Proof.
move=> a_gt0 b_gt0 p; rw !inE !mem_primes gcdn_gt0 a_gt0 b_gt0 /= dvdn_gcd.
by case/andP=> -> ->.
Qed.

Lemma pi_div_gcd a b : 0 < a -> 0 < b ->
  \pi(a %/ gcdn a b) =i gt_primes a b.
Proof.
move=> a_gt0 b_gt0 p; rw !inE -logn_gt0 logn_div ?dvdn_gcdl //.
by rw subn_gt0 logn_gcd // gtn_min ltnn.
Qed.

Lemma gcd_ppi_ppo_spec a b : 0 < a -> 0 < b ->
  returns (fun f => gcd_ppi_ppo f a b) (gcdn a b, a`_\pi(b), a`_\pi(b)^').
Proof.
move=> a_gt0 b_gt0.
have g_gt0 : 0 < gcdn a b by rw gcdn_gt0 a_gt0.
have q_gt0 : 0 < a %/ gcdn a b by rw divn_gt0 // dvdn_leq // dvdn_gcdl.
have [F HF] := pp_loop_spec g_gt0 q_gt0.
exists F => f /HF; rw /gcd_ppi_ppo fdiv_qE //= => -> /=.
rw mulnC divnK ?dvdn_gcdl //.
rw (eq_in_partn (pi_gcd_in a_gt0 b_gt0)).
have E : {in \pi(a), (\pi(gcdn a b))^' =i (\pi(b))^'}.
  by move=> p pa; rw !inE /=; congr (~~ _); apply: (pi_gcd_in a_gt0 b_gt0).
by rw (eq_in_partn E).
Qed.

Lemma ppi_ppo_spec a b : 0 < a -> 0 < b ->
  returns (fun f => ppi_ppo f a b) (a`_\pi(b), a`_\pi(b)^').
Proof.
move=> a_gt0 b_gt0; have [F HF] := gcd_ppi_ppo_spec a_gt0 b_gt0.
by exists F => f /HF; rw /ppi_ppo => ->.
Qed.

Lemma ppi_spec a b : 0 < a -> 0 < b ->
  returns (fun f => ppi f a b) (a`_\pi(b)).
Proof.
move=> a_gt0 b_gt0; have [F HF] := gcd_ppi_ppo_spec a_gt0 b_gt0.
by exists F => f /HF; rw /ppi => ->.
Qed.

Lemma gcd_ppg_pple_spec a b : 0 < a -> 0 < b ->
  returns (fun f => gcd_ppg_pple f a b) (gcdn a b, ppg_of a b, pple_of a b).
Proof.
move=> a_gt0 b_gt0.
have g_gt0 : 0 < gcdn a b by rw gcdn_gt0 a_gt0.
have q_gt0 : 0 < a %/ gcdn a b by rw divn_gt0 // dvdn_leq // dvdn_gcdl.
have [F HF] := pp_loop_spec q_gt0 g_gt0.
exists F => f /HF; rw /gcd_ppg_pple fdiv_qE //= gcd_ppg_pple_loopE => -> /=.
rw divnK ?dvdn_gcdl // /ppg_of /pple_of.
rw (eq_partn _ (pi_div_gcd a_gt0 b_gt0)).
by rw (eq_partn _ (eq_negn (pi_div_gcd a_gt0 b_gt0))).
Qed.

(* ===================================================================== *)
(* reduce                                                                 *)
(* ===================================================================== *)

Lemma reduce_mono p a : monotone (fun f => reduce f p a).
Proof.
move=> f; elim: f p a => [|f IH] p a [|g] w //=; rw ltnS => le_fg.
case: (mpz_fdiv_r a p) => //= r; case: ifP => // _.
case: (mpz_fdiv_q a p) => //= a2.
case E: (reduce f _ _) => [[j b]||] //=.
by rw (IH _ _ _ _ le_fg E).
Qed.

Lemma reduce_spec a p : 1 < p -> 0 < a ->
  exists i c,
    [/\ returns (fun f => reduce f p a) (i, c), p ^ i * c = a & ~~ (p %| c)].
Proof.
elim: a {-2}a (leqnn a) p => [|k IH] a.
  by rw leqn0 => /eqP->.
move=> le_a p p_gt1 a_gt0.
have p_gt0 : 0 < p by apply: ltnW.
have [pa|npa] := boolP (p %| a); last first.
  exists 0, a; split; rw ?mul1n //.
  exists 1 => -[|f] //= _; rw fdiv_rE //=.
  by move: npa; rw /dvdn => ->.
have q_gt0 : 0 < a %/ p by rw divn_gt0 // dvdn_leq.
have q_le : a %/ p <= k.
  by rw -ltnS; apply: leq_trans le_a; rw ltn_Pdiv.
have pp_gt1 : 1 < p * p by rw -(muln1 1); apply: ltn_mul.
have [j [b [[F HF] Eb nb]]] := IH _ q_le _ pp_gt1 q_gt0.
have Ea : p ^ (j * 2 + 1) * b = a.
  move: Eb; rw mulnn -expnM => Eb.
  by rw expnD expn1 [j * 2]mulnC -mulnA [p * b]mulnC mulnA Eb divnK.
have pa0 : a %% p == 0 by [].
have [pb|npb] := boolP (p %| b).
  have pb0 : b %% p == 0 by [].
  exists (j * 2 + 2), (b %/ p); split.
  - exists F.+1 => -[|f] //; rw ltnS => /HF E /=.
    by rw fdiv_rE //= pa0 /= fdiv_qE //= E /= fdiv_rE //= pb0 /= fdiv_qE.
  - by rw -addn1 addnA expnD expn1 -mulnA (mulnC p) divnK.
  - apply: contra nb => pbp.
    by rw -(divnK pb) dvdn_mul.
exists (j * 2 + 1), b; split=> //.
exists F.+1 => -[|f] //; rw ltnS => /HF E /=.
rw fdiv_rE //= pa0 /= fdiv_qE //= E /= fdiv_rE //=.
by move: npb; rw /dvdn => /negbTE ->.
Qed.

(* With p = 1 every call divides evenly and recurses on the same pair. *)
Lemma reduce_one_diverges a : diverges (fun f => reduce f 1 a).
Proof.
move=> f; elim: f => [|f IH] //=.
by rw /mpz_fdiv_r /mpz_fdiv_q /= modn1 divn1 /= IH.
Qed.

(* ===================================================================== *)
(* Arithmetic on indices                                                  *)
(* ===================================================================== *)

(* The midpoint rule shared by prod, split, cb and find_factor. *)
Lemma midpoint from to (n := to - from) (mid := to - n %/ 2 - 1) :
  from < to -> [/\ from <= mid, mid < to & to - n %/ 2 = mid.+1].
Proof.
move=> lt_ft; rw /mid.
have n_gt0 : 0 < n by rw subn_gt0.
have := ltn_Pdiv (isT : 1 < 2) n_gt0.
have : n <= to by apply: leq_subr.
have : n + from = to by rw subnK // ltnW.
move: (n %/ 2) => h.
by split; nat_lia.
Qed.

Lemma range_ind (P : nat -> nat -> Prop) :
  (forall i, P i i) ->
  (forall from to mid, from < to ->
     to - (to - from) %/ 2 - 1 = mid -> to - (to - from) %/ 2 = mid.+1 ->
     from <= mid -> mid < to -> P from mid -> P mid.+1 to -> P from to) ->
  forall from to, from <= to -> P from to.
Proof.
move=> P0 PS from to le_ft.
have [k] := ubnP (to - from).
elim: k from to le_ft => // k IH from to; rw ltnS.
rw leq_eqVlt => /orP[/eqP-> //|lt_ft] le_k.
have [le_fm lt_mt E] := midpoint lt_ft.
by apply: (PS _ _ _ lt_ft erefl E) => //; apply: IH => //; nat_lia.
Qed.

Lemma slice1 i p : i < size p -> slice i i p = [:: nth 0 p i].
Proof.
by move=> lt_i; rw /slice subSn // subnn (drop_nth 0 lt_i) /= take0.
Qed.

Lemma slice_cat from mid to p : from <= mid -> mid < to ->
  slice from to p = slice from mid p ++ slice mid.+1 to p.
Proof.
move=> le_fm lt_mt; rw /slice.
have -> : to.+1 - from = (mid.+1 - from) + (to.+1 - mid.+1) by nat_lia.
rw takeD drop_drop; congr (_ ++ take _ (drop _ _)).
by nat_lia.
Qed.

Lemma slice_all p : slice 0 (size p - 1) p = p.
Proof.
rw /slice drop0 subn0; case: p => // x p.
by rw /= subn1 /= take_size.
Qed.

Lemma all_slice (a : pred nat) from to p :
  all a p -> all a (slice from to p).
Proof.
move=> /allP ap; apply/allP => x /mem_take /mem_drop; exact: ap.
Qed.

(* ===================================================================== *)
(* prod and split                                                         *)
(* ===================================================================== *)

Lemma prod_mono p from to : monotone (fun f => prod f p from to).
Proof.
move=> f; elim: f from to => [|f IH] from to [|g] w //=; rw ltnS => le_fg.
case: ifP => // _.
case E1: (prod f _ _ _) => [x||] //=; rw (IH _ _ _ _ le_fg E1) /=.
by case E2: (prod f _ _ _) => [y||] //=; rw (IH _ _ _ _ le_fg E2).
Qed.

Lemma array_prod_mono p : monotone (fun f => array_prod f p).
Proof.
by move=> f g w le_fg; rw /array_prod; case: ifP => // _; apply: prod_mono.
Qed.

Lemma prod_spec p from to : from <= to -> to < size p ->
  returns (fun f => prod f p from to) (\prod_(x <- slice from to p) x).
Proof.
move=> le_ft; elim/range_ind: le_ft => [i|{}from {}to mid lt_ft Em Em1].
  move=> lt_i; exists 1 => -[|f] //= _.
  by rw subnn /= /array_get lt_i slice1 // big_seq1.
move=> le_fm lt_mt IH1 IH2 lt_t.
have [F1 H1] := IH1 (ltn_trans lt_mt lt_t).
have [F2 H2] := IH2 lt_t.
exists (maxn F1 F2).+1 => -[|f] //; rw ltnS geq_max => /andP[/H1 E1 /H2 E2].
rw /= subn_eq0 leqNgt lt_ft /= Em Em1 E1 /= E2 /=.
by rw (slice_cat _ le_fm lt_mt) big_cat.
Qed.

Lemma array_prod_spec p :
  returns (fun f => array_prod f p) (\prod_(x <- p) x).
Proof.
rw /array_prod; case: ltnP => [p_gt0|].
  rw -[in X in returns _ X](slice_all p); apply: prod_spec => //.
  by rw subn1 ltn_predL.
by rw leqn0 size_eq0 => /eqP->; rw big_nil; exists 0.
Qed.

Lemma prodn_seq_gt0 (s : seq nat) : positive s -> 0 < \prod_(x <- s) x.
Proof.
elim: s => [|x s IH]; first by rw big_nil.
by rw big_cons muln_gt0 /= => /andP[-> /IH].
Qed.

Lemma dvdn_prod_mem (s : seq nat) x : x \in s -> x %| \prod_(y <- s) y.
Proof.
elim: s => [|y s IH] //; rw inE big_cons => /orP[/eqP->|/IH xs].
  exact: dvdn_mulr.
exact: dvdn_mull.
Qed.

Lemma coprime_prodr x (s : seq nat) :
  coprime x (\prod_(y <- s) y) = all (coprime x) s.
Proof.
elim: s => [|y s IH]; first by rw big_nil coprimen1.
by rw big_cons coprimeMr IH.
Qed.

Lemma dvdn_log m n : 0 < m -> 0 < n ->
  (forall p, prime p -> logn p m <= logn p n) -> m %| n.
Proof.
move=> m_gt0 n_gt0 le_log; apply/dvdn_partP => // p.
rw mem_primes => /and3P[p_pr _ _].
by rw p_part pfactor_dvdn // le_log.
Qed.

(* The part of k over the primes of a product of coprime factors. *)
Lemma partn_piM k m n : 0 < m -> 0 < n -> coprime m n ->
  k`_\pi(m * n) = k`_\pi(m) * k`_\pi(n).
Proof.
move=> m_gt0 n_gt0 co_mn.
rw -(@partnC \pi(m) k`_\pi(m * n)) ?part_gt0 // -!partnI.
congr (_ * _); apply: eq_partn => p; rw !inE pi_ofM // !inE.
  by case: (p \in primes m); rw ?andbF.
case pm: (p \in primes m); rw /= ?andbT // ?andbF.
case pn: (p \in primes n) => //.
move: co_mn; rw coprime_pi' // => /pnatP-/(_ n_gt0 p).
move: pn (pm); rw !mem_primes => /and3P[p_pr _ pn] _.
by move=> /(_ p_pr pn); rw !inE /= pm.
Qed.

Lemma partn_pi_prod k (s : seq nat) : positive s -> pairwise coprime s ->
  k`_\pi(\prod_(x <- s) x) = \prod_(x <- s) k`_\pi(x).
Proof.
elim: s => [|x s IH] /=.
  by rw !big_nil => _ _; rw /partn big1.
case/andP=> x_gt0 s_pos /andP[co_x co_s].
by rw !big_cons partn_piM ?prodn_seq_gt0 ?coprime_prodr // IH.
Qed.

Lemma split_mono ret a p from to :
  monotone (fun f => split f ret a p from to).
Proof.
move=> f; elim: f ret a from to => [|f IH] ret a from to [|g] w //=.
rw ltnS => le_fg.
case E1: (prod f _ _ _) => [x||] //=; rw (prod_mono le_fg E1) /=.
case E2: (ppi f _ _) => [b||] //=; rw (ppi_mono le_fg E2) /=.
case: ifP => // _.
case E3: (split f _ _ _ _ _) => [r||] //=; rw (IH _ _ _ _ _ _ le_fg E3) /=.
exact: IH.
Qed.

Lemma array_split_mono ret a p : monotone (fun f => array_split f ret a p).
Proof.
by move=> f g w le_fg; rw /array_split; case: ifP => // _; apply: split_mono.
Qed.

(* Slot i of the output of split is ppi(a, P[i]), whatever P. *)
Lemma split_spec p from to : positive p -> from <= to -> to < size p ->
  forall a ret, 0 < a ->
  returns (fun f => split f ret a p from to)
          (ret ++ [seq a`_\pi(x) | x <- slice from to p]).
Proof.
move=> p_pos le_ft.
have sub_part a s x : positive s -> x \in s ->
    (a`_\pi(\prod_(y <- s) y))`_\pi(x) = a`_\pi(x).
  move=> s_pos xs; apply: partn_part.
  by apply: pi_of_dvd; rw ?prodn_seq_gt0 ?dvdn_prod_mem.
elim/range_ind: le_ft => [i|{}from {}to mid lt_ft Em Em1].
  move=> lt_i a ret a_gt0.
  have [Fp Hp] := prod_spec (leqnn i) lt_i.
  have x_gt0 : 0 < \prod_(x <- slice i i p) x.
    by apply: prodn_seq_gt0; apply: all_slice.
  have [Fi Hi] := ppi_spec a_gt0 x_gt0.
  exists (maxn Fp Fi).+1 => -[|f] //; rw ltnS geq_max => /andP[/Hp E1 /Hi E2].
  by rw /= E1 /= E2 /= subnn /= slice1 // big_seq1 /array_add -cats1.
move=> le_fm lt_mt IH1 IH2 lt_t a ret a_gt0.
have s_pos : positive (slice from to p) by apply: all_slice.
have x_gt0 := prodn_seq_gt0 s_pos.
have [Fp Hp] := prod_spec (ltnW lt_ft) lt_t.
have [Fi Hi] := ppi_spec a_gt0 x_gt0.
set b := a`_\pi(_) in Hi.
have b_gt0 : 0 < b by apply: part_gt0.
have [F1 H1] := IH1 (ltn_trans lt_mt lt_t) b ret b_gt0.
have [F2 H2] := IH2 lt_t b (ret ++ [seq b`_\pi(x) | x <- slice from mid p]) b_gt0.
exists (maxn (maxn Fp Fi) (maxn F1 F2)).+1 => -[|f] //.
rw ltnS !geq_max => /andP[/andP[/Hp E1 /Hi E2] /andP[/H1 E3 /H2 E4]].
rw /= E1 /= E2 /= subn_eq0 leqNgt lt_ft /= Em Em1 E3 /= E4.
rw -catA -map_cat -slice_cat //; congr (Ret (_ ++ _)).
by apply/eq_in_map => x xs; apply: sub_part.
Qed.

Lemma array_split_spec p a ret : positive p -> 0 < a ->
  returns (fun f => array_split f ret a p) (ret ++ [seq a`_\pi(x) | x <- p]).
Proof.
move=> p_pos a_gt0; rw /array_split; case: ltnP => [p_gt0|].
  rw -[in X in returns _ (_ ++ map _ X)](slice_all p); apply: split_spec => //.
  by rw subn1 ltn_predL.
by rw leqn0 size_eq0 => /eqP->; rw cats0; exists 0.
Qed.

(* ===================================================================== *)
(* Spans                                                                  *)
(* ===================================================================== *)

Lemma span_mem B x : x \in B -> span B x.
Proof. by move=> xB; rw -(muln1 x); apply: span_mul => //; apply: span_one. Qed.

Lemma spanM B x y : span B x -> span B y -> span B (x * y).
Proof.
move=> sx sy; elim: sx => [|u v uB _ IH]; first by rw mul1n.
by rw -mulnA; apply: span_mul.
Qed.

Lemma spanX B x k : span B x -> span B (x ^ k).
Proof.
move=> sx; elim: k => [|k IH]; first by rw expn0; apply: span_one.
by rw expnS; apply: spanM.
Qed.

Lemma span_refine B B' y :
  (forall x, x \in B -> span B' x) -> span B y -> span B' y.
Proof.
move=> sub; elim=> [|u v uB _ IH]; first exact: span_one.
by apply: spanM => //; apply: sub.
Qed.

Lemma span_sub B B' y : {subset B <= B'} -> span B y -> span B' y.
Proof. by move=> sub; apply: span_refine => x /sub; apply: span_mem. Qed.

Lemma span_catl B B' y : span B y -> span (B ++ B') y.
Proof. by apply: span_sub => x; rw mem_cat => ->. Qed.

Lemma span_catr B B' y : span B' y -> span (B ++ B') y.
Proof. by apply: span_sub => x; rw mem_cat => ->; rw orbT. Qed.

Lemma span_nil y : span [::] y -> y = 1.
Proof. by elim. Qed.

Lemma span_all (a : pred nat) B y :
  a 1 -> (forall u v, a u -> a v -> a (u * v)) -> all a B -> span B y -> a y.
Proof.
move=> a1 aM /allP aB; elim=> [|u v uB _ IH] //.
by apply: aM => //; apply: aB.
Qed.

Lemma span_gt0 B y : positive B -> span B y -> 0 < y.
Proof. by apply: span_all => // u v; rw muln_gt0 => -> ->. Qed.

Lemma span_pnat pi B y : all (pnat pi) B -> span B y -> pi.-nat y.
Proof. by apply: span_all => // u v; rw pnatM => -> ->. Qed.

Lemma span_coprime x B y : all (coprime x) B -> span B y -> coprime x y.
Proof.
by apply: span_all => [|u v]; rw ?coprimen1 // coprimeMr => -> ->.
Qed.

(* A nontrivial element of a span needs a nonempty list. *)
Lemma span_gt1 B y : span B y -> 1 < y -> B != [::].
Proof. by case: B => // /span_nil->. Qed.

Lemma span_cons_inv x B y :
  span (x :: B) y -> exists e z, y = x ^ e * z /\ span B z.
Proof.
elim=> [|u v uB _ [e [z [-> sz]]]].
  by exists 0, 1; split; [rw expn0 | apply: span_one].
move: uB; rw inE => /orP[/eqP->|uB].
  by exists e.+1, z; split; rw // expnS mulnA.
exists e, (u * z); split; first by rw mulnCA.
exact: span_mul.
Qed.

(* ===================================================================== *)
(* Prime powers                                                           *)
(* ===================================================================== *)

Lemma two_powerE x n : two_power x n = x ^ (2 ^ n).
Proof.
elim: n x => [|n IH] x /=; first by rw expn0 expn1.
by rw IH mulnn -expnM -expnS.
Qed.

Lemma logn_partn pi p n :
  logn p n`_pi = if p \in pi then logn p n else 0.
Proof.
rw -logn_part -partnI; case: ifP => [p_pi|p_npi].
  rw -[RHS]logn_part; congr (logn p _); apply: eq_partn => q.
  by rw !inE; case: eqP => [->|]; rw ?andbF // p_pi.
rw -[RHS](logn1 p); congr (logn p _); rw /partn big1 // => q.
by rw !inE => /andP[q_pi /eqP E]; move: q_pi; rw E p_npi.
Qed.

Lemma coprime_logn p m n : coprime m n -> prime p ->
  (logn p m == 0) || (logn p n == 0).
Proof.
move=> co_mn p_pr; rw !eqn0Ngt !logn_gt0 -negb_and.
apply/negP => /andP[]; rw !mem_primes => /and3P[_ _ pm] /and3P[_ _ pn].
have: p %| gcdn m n by rw dvdn_gcd pm.
by move: co_mn => /eqP->; rw dvdn1 => /eqP E; move: p_pr; rw E.
Qed.

Lemma coprime_by_primes m n : 0 < m ->
  (forall p, prime p -> p %| m -> ~~ (p %| n)) -> coprime m n.
Proof.
move=> m_gt0 H; rw /coprime.
have g_gt0 : 0 < gcdn m n by rw gcdn_gt0 m_gt0.
rw eqn_leq g_gt0 andbT leqNgt; apply/negP => g_gt1.
have := H _ (pdiv_prime g_gt1) (dvdn_trans (pdiv_dvd _) (dvdn_gcdl _ _)).
by rw (dvdn_trans (pdiv_dvd _) (dvdn_gcdr _ _)).
Qed.

Lemma gcdnMl_coprime m n k : 0 < m -> 0 < n -> 0 < k -> coprime m n ->
  gcdn (m * n) k = gcdn m k * gcdn n k.
Proof.
move=> m_gt0 n_gt0 k_gt0 co_mn.
have mn_gt0 : 0 < m * n by rw muln_gt0 m_gt0.
apply: eqn_from_log; rw ?muln_gt0 ?gcdn_gt0 ?mn_gt0 ?m_gt0 ?n_gt0 // => p.
case p_pr: (prime p); last by rw /logn p_pr.
rw lognM ?gcdn_gt0 ?m_gt0 ?n_gt0 // !logn_gcd // lognM //.
by case/orP: (coprime_logn co_mn p_pr) => /eqP->;
   rw ?min0n ?add0n ?addn0.
Qed.

(* --------------------------------------------------------------------- *)
(* ppg and pple, prime by prime                                           *)
(* --------------------------------------------------------------------- *)

Lemma ppgM a b : 0 < a -> ppg_of a b * pple_of a b = a.
Proof. exact: partnC. Qed.

Lemma coprime_ppg_pple a b : coprime (ppg_of a b) (pple_of a b).
Proof. exact: coprime_partC. Qed.

Lemma ppg_gt0 a b : 0 < ppg_of a b. Proof. exact: part_gt0. Qed.
Lemma pple_gt0 a b : 0 < pple_of a b. Proof. exact: part_gt0. Qed.
Lemma ppg_dvd a b : ppg_of a b %| a. Proof. exact: dvdn_part. Qed.
Lemma pple_dvd a b : pple_of a b %| a. Proof. exact: dvdn_part. Qed.

Lemma prime_dvd_logn p n : prime p -> 0 < n -> (p %| n) = (0 < logn p n).
Proof. by move=> p_pr n_gt0; rw logn_gt0 mem_primes p_pr n_gt0. Qed.

Lemma ppg_prime a b p : prime p -> p %| ppg_of a b ->
  logn p b < logn p a /\ logn p (ppg_of a b) = logn p a.
Proof.
move=> p_pr; rw prime_dvd_logn ?ppg_gt0 // /ppg_of logn_partn.
by case: ifP.
Qed.

Lemma pple_prime a b p : prime p -> p %| pple_of a b ->
  logn p a <= logn p b /\ logn p (pple_of a b) = logn p a.
Proof.
move=> p_pr; rw prime_dvd_logn ?pple_gt0 // /pple_of logn_partn.
by case: ifP => //; rw !inE -leqNgt.
Qed.

Lemma pple_dvd_gcd a b : 0 < a -> 0 < b -> pple_of a b %| gcdn a b.
Proof.
move=> a_gt0 b_gt0; apply: dvdn_log; rw ?pple_gt0 ?gcdn_gt0 ?a_gt0 // => p p_pr.
rw logn_gcd // /pple_of logn_partn; case: ifP => //.
by rw !inE -leqNgt => /minn_idPl->.
Qed.

Lemma coprime_ppg_div a b : 0 < a -> 0 < b ->
  coprime (ppg_of a b) (b %/ gcdn a b).
Proof.
move=> a_gt0 b_gt0; apply: coprime_by_primes; rw ?ppg_gt0 // => p p_pr.
case/(ppg_prime p_pr) => lt_ba _.
have q_gt0 : 0 < b %/ gcdn a b by rw divn_gt0 ?gcdn_gt0 ?a_gt0 // dvdn_leq ?dvdn_gcdr.
rw prime_dvd_logn // -leqNgt logn_div ?dvdn_gcdr // logn_gcd // leqn0 subn_eq0.
by rw (minn_idPr (ltnW lt_ba)).
Qed.

(* --------------------------------------------------------------------- *)
(* One turn of the loop of append_cb                                      *)
(* --------------------------------------------------------------------- *)

Lemma loop_inv_init a1 b : 0 < a1 -> 0 < b -> \pi(b).-nat a1 ->
  loop_inv b 0 (gcdn a1 b) (ppg_of a1 b).
Proof.
move=> a_gt0 b_gt0 a_pi; split; rw ?gcdn_gt0 ?a_gt0 ?ppg_gt0 // => p p_pr ph.
have [lt_ba Eh] := ppg_prime p_pr ph.
have pa : p \in \pi(a1).
  by rw inE /= mem_primes p_pr a_gt0 (dvdn_trans ph (ppg_dvd _ _)).
rw expn0 mul1n Eh logn_gcd // (minn_idPr (ltnW lt_ba)); split=> //.
by rw logn_gt0; apply: (pnatPpi a_pi).
Qed.

Lemma loop_inv_step b m g h : 0 < b -> loop_inv b m g h ->
  loop_inv b m.+1 (gcdn h (g * g)) (ppg_of h (g * g)).
Proof.
move=> b_gt0 [g_gt0 h_gt0 inv].
have gg_gt0 : 0 < g * g by rw muln_gt0 g_gt0.
split; rw ?gcdn_gt0 ?h_gt0 ?ppg_gt0 // => p p_pr ph'.
have [lt_gh Eh'] := ppg_prime p_pr ph'.
have [lb_gt0 Eg lt_h] := inv p p_pr (dvdn_trans ph' (ppg_dvd _ _)).
have Egg : logn p (g * g) = 2 ^ m.+1 * logn p b.
  by rw lognM // Eg expnS mul2n -addnn mulnDl.
split=> //; last by rw Eh' -Egg.
by rw logn_gcd // (minn_idPr (ltnW lt_gh)).
Qed.

Lemma loop_step_dvd b m g h (c := pple_of h (g * g)) : 0 < b ->
  loop_inv b m g h -> gcdn c b ^ (2 ^ m) %| c.
Proof.
move=> b_gt0 [g_gt0 h_gt0 inv].
have c_gt0 : 0 < c by apply: pple_gt0.
have d_gt0 : 0 < gcdn c b by rw gcdn_gt0 c_gt0.
apply: dvdn_log; rw ?expn_gt0 ?d_gt0 // => p p_pr.
rw lognX logn_gcd //.
have [pc|npc] := boolP (p %| c); last first.
  by move: npc; rw prime_dvd_logn // -leqNgt leqn0 => /eqP->; rw min0n muln0.
have [_ Ec] := pple_prime p_pr pc.
have [_ _ lt_h] := inv p p_pr (dvdn_trans pc (pple_dvd _ _)).
rw -/c in Ec; rw Ec; apply: leq_trans (ltnW lt_h).
by rw leq_mul2l geq_minr orbT.
Qed.

Lemma loop_inv_bound b m g h : loop_inv b m g h -> 1 < h -> m < h.
Proof.
move=> [g_gt0 h_gt0 inv] h_gt1.
have [lb_gt0 _ lt_h] := inv _ (pdiv_prime h_gt1) (pdiv_dvd h).
apply: ltn_trans (ltn_expl m (isT : 1 < 2)) _.
apply: leq_ltn_trans (ltn_logl (pdiv h) h_gt0).
by apply: leq_trans (ltnW lt_h); rw leq_pmulr.
Qed.

(* ===================================================================== *)
(* Coprime bases                                                          *)
(* ===================================================================== *)

Lemma coprime_base_cat L1 L2 :
  coprime_base (L1 ++ L2) =
  [&& coprime_base L1, coprime_base L2 & allrel coprime L1 L2].
Proof.
rw /coprime_base all_cat pairwise_cat.
by case: (all _ L1); case: (all _ L2); case: (allrel _ _ _);
   rw ?andbF ?andbT.
Qed.

Lemma coprime_base_positive L : coprime_base L -> positive L.
Proof.
by case/andP=> + _; apply: sub_all => x; apply: ltnW.
Qed.

Lemma pnat_pi_dvd m n x : m %| n -> 0 < n -> \pi(m).-nat x -> \pi(n).-nat x.
Proof.
move=> mn n_gt0; apply: sub_in_pnat => p _; exact: pi_of_dvd.
Qed.

Lemma all_pnat_pi_dvd m n L :
  m %| n -> 0 < n -> all (pnat \pi(m)) L -> all (pnat \pi(n)) L.
Proof. by move=> mn n_gt0; apply: sub_all => x; apply: pnat_pi_dvd. Qed.

Lemma coprime_pnat_pi m n x y : 0 < m -> 0 < n -> coprime m n ->
  \pi(m).-nat x -> \pi(n).-nat y -> coprime x y.
Proof.
move=> m_gt0 n_gt0; rw coprime_pi' // => n_m'.
apply: sub_pnat_coprime => p; exact: (pnatPpi n_m').
Qed.

Lemma allrel_coprime_pnat m n L1 L2 : 0 < m -> 0 < n -> coprime m n ->
  all (pnat \pi(m)) L1 -> all (pnat \pi(n)) L2 -> allrel coprime L1 L2.
Proof.
move=> m_gt0 n_gt0 co_mn /allP H1 /allP H2.
apply/allrelP => x y /H1 x_m /H2 y_n.
exact: coprime_pnat_pi co_mn x_m y_n.
Qed.

(* ===================================================================== *)
(* append_cb                                                              *)
(* ===================================================================== *)

Lemma append_cb_loop_mono rec rec' f g out b gg h x n w :
  (forall o u v r, rec o u v = Ret r -> rec' o u v = Ret r) -> f <= g ->
  append_cb_loop rec f out b gg h x n = Ret w ->
  append_cb_loop rec' g out b gg h x n = Ret w.
Proof.
move=> sub; elim: f g out gg h x n => [|f IH] [|g] out gg h x n //=.
rw ltnS => le_fg.
case E1: (gcd_ppg_pple f _ _) => [[[g' h'] c]||] //=.
rw (gcd_ppg_pple_mono le_fg E1) /=.
case: (mpz_fdiv_q _ _) => //= b1.
case E2: (rec _ _ _) => [o||] //=; rw (sub _ _ _ _ E2) /=.
by case: ifP => // _; apply: IH.
Qed.

Lemma append_cb_mono out a b : monotone (fun f => append_cb f out a b).
Proof.
move=> f; elim: f out a b => [|f IH] out a b [|g] w //=; rw ltnS => le_fg.
case: ifP => // _.
case E1: (ppi_ppo f _ _) => [[a1 r]||] //=; rw (ppi_ppo_mono le_fg E1) /=.
case E2: (gcd_ppg_pple f _ _) => [[[g0 h] c]||] //=.
rw (gcd_ppg_pple_mono le_fg E2) /=.
case E3: (append_cb_loop _ _ _ _ _ _ _ _) => [[out2 x']||] //=.
have sub o u v z : append_cb f o u v = Ret z -> append_cb g o u v = Ret z.
  exact: IH.
rw (append_cb_loop_mono sub le_fg E3) /=.
by case: (mpz_fdiv_q _ _) => //= b1; apply: IH.
Qed.

Section AppendCbLoop.

Variables (b hmax : nat).
Hypothesis b_gt1 : 1 < b.
Hypothesis Hrec : forall A d, 0 < A -> 0 < d -> A * d <= hmax -> d <= b ->
  exists2 L, cb_pair L A d
           & forall out, returns (fun f => append_cb f out A d) (out ++ L).

Let b_gt0 : 0 < b. Proof. exact: ltnW. Qed.

(* One turn, given the remaining turns. *)
Lemma append_cb_loop_turn m g h :
  loop_inv b m g h -> h <= hmax ->
  (ppg_of h (g * g) != 1 ->
   exists2 L2, loop_list L2 (ppg_of h (g * g)) b
             & loop_returns L2 b m.+1 (gcdn h (g * g)) (ppg_of h (g * g))) ->
  exists2 L, loop_list L h b & loop_returns L b m g h.
Proof.
move=> inv le_h Hcont; have [g_gt0 h_gt0 _] := inv.
set g' := gcdn h (g * g); set h' := ppg_of h (g * g) in Hcont *.
pose c := pple_of h (g * g); pose d := gcdn c b; pose y := d ^ (2 ^ m).
have gg_gt0 : 0 < g * g by rw muln_gt0 g_gt0.
have c_gt0 : 0 < c by apply: pple_gt0.
have h'_gt0 : 0 < h' by apply: ppg_gt0.
have d_gt0 : 0 < d by rw gcdn_gt0 c_gt0.
have y_gt0 : 0 < y by rw expn_gt0 d_gt0.
have yc : y %| c by apply: loop_step_dvd inv.
have Eh : h' * c = h by apply: ppgM.
have ch : c %| h by apply: pple_dvd.
have h'h : h' %| h by apply: ppg_dvd.
have co_ch' : coprime c h' by rw coprime_sym; apply: coprime_ppg_pple.
pose A := c %/ y.
have EA : A * y = c by apply: divnK.
have A_gt0 : 0 < A by rw divn_gt0 // dvdn_leq.
have le_dy : d <= y by rw -[X in X <= _]expn1 leq_pexp2l // expn_gt0.
have le_Ad : A * d <= hmax.
  apply: leq_trans le_h; apply: leq_trans (dvdn_leq h_gt0 ch).
  by rw -EA leq_mul2l le_dy orbT.
have le_db : d <= b by apply: dvdn_leq => //; apply: dvdn_gcdr.
have [L1 [cb1 sA sd pi1] ret1] := Hrec A_gt0 d_gt0 le_Ad le_db.
have sc : span L1 c by rw -EA; apply: spanM => //; apply: spanX.
have pic : all (pnat \pi(c)) L1.
  rw -(pi_of_exp c (isT : 0 < 2)).
  apply: all_pnat_pi_dvd pi1; rw ?expn_gt0 ?c_gt0 //.
  by rw expnS expn1 dvdn_mul ?dvdn_gcdl // -EA dvdn_mulr.
have [F1 H1] := gcd_ppg_pple_spec h_gt0 gg_gt0.
have run_turn out x fr fl : F1 <= fl ->
    append_cb fr out A d = Ret (out ++ L1) ->
    append_cb_loop (append_cb fr) fl.+1 out b g h x m.+1 =
    if h' == 1 then Ret (out ++ L1, x * d)
    else append_cb_loop (append_cb fr) fl (out ++ L1) b g' h' (x * d) m.+2.
  move=> /H1 E1 E2.
  by rw /= E1 /= subn1 /= two_powerE fdiv_qE //= -/c -/d -/y -/A E2.
have [/eqP h'1|h'n1] := boolP (h' == 1).
  have Ehc : h = c by rw -Eh h'1 mul1n.
  exists L1; first by split; rw // Ehc.
  move=> out x; have [F2 H2] := ret1 out.
  exists (maxn F1 F2).+1 => fr [|fl] //; rw ltnS gtn_max geq_max.
  case/andP=> _ /ltnW/H2 E2 /andP[le1 _].
  by rw run_turn // h'1 /= Ehc.
have [L2 [cb2 pi2 sh' sg'] ret2] := Hcont h'n1.
exists (L1 ++ L2).
  split.
  - rw coprime_base_cat cb1 cb2 /=.
    exact: allrel_coprime_pnat co_ch' pic pi2.
  - by rw all_cat (all_pnat_pi_dvd ch) // (all_pnat_pi_dvd h'h).
  - by rw -Eh; apply: spanM; [apply: span_catr | apply: span_catl].
  - rw -Eh gcdnMl_coprime // 1?coprime_sym //.
    by apply: spanM; [apply: span_catr | apply: span_catl].
move=> out x; have [F2 H2] := ret1 out.
have [F3 H3] := ret2 (out ++ L1) (x * d).
exists (maxn F1 (maxn F2 F3)).+1 => fr [|fl] //; rw ltnS !gtn_max !geq_max.
case/and3P=> _ /ltnW/H2 E2 /ltnW le3 /and3P[le1 _ le3'].
rw run_turn // (negbTE h'n1) H3 // -catA -Eh gcdnMl_coprime // 1?coprime_sym //.
by rw -mulnA [d * _]mulnC.
Qed.

Lemma append_cb_loop_next m g h (h' := ppg_of h (g * g)) :
  loop_inv b m g h -> h' != 1 ->
  [/\ loop_inv b m.+1 (gcdn h (g * g)) h', m.+1 < h' & h' <= h].
Proof.
move=> inv h'n1; have inv' := loop_inv_step b_gt0 inv.
have h'_gt1 : 1 < h' by rw ltn_neqAle eq_sym h'n1 ppg_gt0.
split=> //; first exact: loop_inv_bound inv' h'_gt1.
by apply: dvdn_leq (ppg_dvd _ _); case: inv.
Qed.

Lemma append_cb_loop_spec k m g h :
  loop_inv b m g h -> h <= hmax -> h < m + k ->
  exists2 L, loop_list L h b & loop_returns L b m g h.
Proof.
elim: k m g h => [|k IH] m g h inv le_h lt_h;
  apply: append_cb_loop_turn => // h'n1;
  have [inv' lt_mh' le_h'h] := append_cb_loop_next inv h'n1.
- by exfalso; nat_lia.
- apply: IH => //; first exact: leq_trans le_h.
  by rw addSnnS; apply: leq_ltn_trans lt_h.
Qed.

End AppendCbLoop.

Lemma cb_pair_one a : 0 < a ->
  cb_pair (if a != 1 then [:: a] else [::]) a 1.
Proof.
move=> a_gt0; case: eqP => [->|/eqP an1] /=.
  by split=> //; apply: span_one.
split; rw /coprime_base /= ?andbT ?muln1 ?pnat_pi //.
- by rw ltn_neqAle eq_sym an1.
- by apply: span_mem; rw inE.
- exact: span_one.
Qed.

Lemma append_cb_spec a b : 0 < a -> 0 < b ->
  exists2 L, cb_pair L a b
           & forall out, returns (fun f => append_cb f out a b) (out ++ L).
Proof.
have [M] := ubnP (a * b + b); elim: M a b => // M IH a b.
rw ltnS => le_M a_gt0 b_gt0.
have [/eqP b1|bn1] := boolP (b == 1).
  exists (if a != 1 then [:: a] else [::]); first by rw b1; apply: cb_pair_one.
  move=> out; exists 1 => -[|f] //= _; rw b1 /=.
  by case: ifP => _; rw ?cats0 // /array_add cats1.
have b_gt1 : 1 < b by rw ltn_neqAle eq_sym bn1.
have lt_a : a + b < a * b + b.
  by rw ltn_add2r -[X in X < _]muln1 ltn_mul2l a_gt0.
pose a1 := a`_\pi(b); pose r := a`_\pi(b)^'.
have Ea : a1 * r = a by apply: partnC.
have a1_gt0 : 0 < a1 by apply: part_gt0.
have r_gt0 : 0 < r by apply: part_gt0.
have a1_pi : \pi(b).-nat a1 by apply: part_pnat.
have co_rb : coprime r b.
  by rw coprime_sym (@pnat_coprime \pi(b)) ?pnat_pi ?part_pnat.
have co_ra1 : coprime r a1.
  by rw coprime_sym; apply: coprime_partC.
pose g0 := gcdn a1 b; pose h0 := ppg_of a1 b; pose c0 := pple_of a1 b.
have g0_gt0 : 0 < g0 by rw gcdn_gt0 a1_gt0.
have h0_gt0 : 0 < h0 by apply: ppg_gt0.
have c0_gt0 : 0 < c0 by apply: pple_gt0.
have Ea1 : h0 * c0 = a1 by apply: ppgM.
have a1a : a1 %| a by apply: dvdn_part.
have h0a : h0 %| a by apply: dvdn_trans a1a; apply: ppg_dvd.
have c0a : c0 %| a by apply: dvdn_trans a1a; apply: pple_dvd.
have c0g : c0 %| g0 by apply: pple_dvd_gcd.
have c0b : c0 %| b by apply: dvdn_trans c0g (dvdn_gcdr _ _).
have co_hc : coprime h0 c0 by apply: coprime_ppg_pple.
have Eg0 : c0 * gcdn h0 b = g0.
  rw /g0 -Ea1 gcdnMl_coprime // mulnC.
  by congr (_ * _); apply/esym/gcdn_idPl.
pose b1 := b %/ g0.
have Eb : b1 * g0 = b by rw divnK // dvdn_gcdr.
have b1_gt0 : 0 < b1 by rw divn_gt0 // dvdn_leq // dvdn_gcdr.
have b1b : b1 %| b by rw -Eb dvdn_mulr.
have co_hb1 : coprime h0 b1 by apply: coprime_ppg_div.
have Hrec A d : 0 < A -> 0 < d -> A * d <= a -> d <= b ->
    exists2 L, cb_pair L A d
             & forall out, returns (fun f => append_cb f out A d) (out ++ L).
  move=> A_gt0 d_gt0 le_Ad le_db; apply: IH => //.
  apply: leq_trans le_M; apply: leq_ltn_trans lt_a.
  exact: leq_add.
have [Lloop [cbl pil sh0 sgh] retl] :=
  append_cb_loop_spec b_gt1 Hrec (loop_inv_init a1_gt0 b_gt0 a1_pi)
    (dvdn_leq a_gt0 h0a) (leqnn h0.+1).
have [Lfin [cbf sb1 sc0 pif] retf] : exists2 L, cb_pair L b1 c0
    & forall out, returns (fun f => append_cb f out b1 c0) (out ++ L).
  apply: IH => //; apply: leq_trans le_M; apply: leq_ltn_trans lt_a.
  rw addnC; apply: leq_add; first exact: dvdn_leq.
  by rw -[X in _ <= X]Eb leq_mul2l (dvdn_leq g0_gt0 c0g) orbT.
pose Lr := if r != 1 then [:: r] else [::].
have cbr : coprime_base Lr.
  rw /Lr; case: eqP => // /eqP rn1.
  by rw /coprime_base /= ltn_neqAle eq_sym rn1 r_gt0.
have pir : all (pnat \pi(r)) Lr.
  by rw /Lr; case: ifP => //=; rw pnat_pi.
have sr : span Lr r.
  rw /Lr; case: eqP => [->|_]; first exact: span_one.
  by apply: span_mem; rw inE.
have bc_gt0 : 0 < b1 * c0 by rw muln_gt0 b1_gt0.
have ab_gt0 : 0 < a * b by rw muln_gt0 a_gt0.
exists (Lr ++ Lloop ++ Lfin).
  split.
  - have co_rh : coprime r h0.
      by apply: (@coprime_dvdr h0 a1) => //; rw -Ea1 dvdn_mulr.
    have co_rbc : coprime r (b1 * c0).
      by rw coprimeMr (coprime_dvdr b1b) // (coprime_dvdr c0b).
    have co_hbc : coprime h0 (b1 * c0) by rw coprimeMr co_hb1.
    rw !coprime_base_cat cbr cbl cbf /= allrel_catr.
    rw (allrel_coprime_pnat r_gt0 h0_gt0 co_rh pir pil).
    rw (allrel_coprime_pnat r_gt0 bc_gt0 co_rbc pir pif).
    by rw (allrel_coprime_pnat h0_gt0 bc_gt0 co_hbc pil pif).
  - rw -Ea -Ea1; apply: spanM; last exact: span_catl.
    apply: span_catr; apply: spanM; [exact: span_catl | exact: span_catr].
  - rw -Eb -Eg0; apply: span_catr; apply: spanM; first exact: span_catr.
    by apply: spanM; [exact: span_catr | exact: span_catl].
  - rw !all_cat; apply/and3P; split.
    + by apply: all_pnat_pi_dvd pir => //; rw -Ea dvdn_mulr // dvdn_mull.
    + by apply: all_pnat_pi_dvd pil => //; rw dvdn_mulr.
    + by apply: all_pnat_pi_dvd pif => //; rw mulnC dvdn_mul.
move=> out.
have [Fi Hi] := ppi_ppo_spec a_gt0 b_gt0.
have [Fg Hg] := gcd_ppg_pple_spec a1_gt0 b_gt0.
have [Fl Hl] := retl (out ++ Lr) c0.
have [Ff Hf] := retf ((out ++ Lr) ++ Lloop).
exists (maxn (maxn Fi Fg) (maxn Fl Ff)).+1 => -[|f] //.
rw ltnS !geq_max => /andP[/andP[/Hi Ei /Hg Eg] /andP[le_l /Hf Ef]].
rw /= (negbTE bn1) Ei /= Eg /=.
have -> : (if r != 1 then array_add out r else out) = out ++ Lr.
  by rw /Lr /array_add; case: ifP => _; rw ?cats0 ?cats1.
by rw Hl //= Eg0 fdiv_qE //= Ef !catA.
Qed.

(* ===================================================================== *)
(* cbextend                                                               *)
(* ===================================================================== *)

Lemma bind_ext (A B : Type) (m : result A) (k k' : A -> result B) :
  k =1 k' -> bind m k = bind m k'.
Proof. by move=> E; case: m => //= x. Qed.

Lemma cbextend_forE f ret p s i k : i + k <= size p -> i + k <= size s ->
  cbextend_for f ret p s i k
  = cbextend_zip f ret (zip (take k (drop i p)) (take k (drop i s))).
Proof.
elim: k i ret => [|k IH] i ret; first by rw !take0.
rw addnS => lt_p lt_s.
have lt_ip : i < size p by apply: leq_ltn_trans lt_p; rw leq_addr.
have lt_is : i < size s by apply: leq_ltn_trans lt_s; rw leq_addr.
rw (drop_nth 0 lt_ip) (drop_nth 0 lt_is) /=.
by apply: bind_ext => ret'; rw IH // addSn.
Qed.

Lemma cbextend_zip_mono ret ps : monotone (fun f => cbextend_zip f ret ps).
Proof.
move=> f g w le_fg; elim: ps ret => [|[x y] ps IH] ret //=.
case E: (append_cb f _ _ _) => [r||] //=.
by rw (append_cb_mono le_fg E) /=; apply: IH.
Qed.

Lemma cbextend_mono ret p b : monotone (fun f => cbextend f ret p b).
Proof.
move=> f g w le_fg; rw /cbextend.
case E1: (array_prod f _) => [x||] //=; rw (array_prod_mono le_fg E1) /=.
case E2: (ppi_ppo f _ _) => [[a r]||] //=; rw (ppi_ppo_mono le_fg E2) /=.
case E3: (array_split f _ _ _) => [s||] //=.
rw (array_split_mono le_fg E3) /=.
case: eqP => //= Es.
by rw !cbextend_forE ?add0n ?Es //; apply: cbextend_zip_mono.
Qed.

Lemma cbextend_zip_spec ps :
  all (fun xy => (0 < xy.1) && (0 < xy.2)) ps ->
  exists2 Ls, cb_pairs Ls ps
    & forall ret, returns (fun f => cbextend_zip f ret ps) (ret ++ flatten Ls).
Proof.
elim: ps => [_|[x y] ps IH] /=.
  by exists [::] => // ret; exists 0 => f _; rw cats0.
case/andP=> /andP[x_gt0 y_gt0] /IH[Ls cbs rets].
have [L cbL retL] := append_cb_spec x_gt0 y_gt0.
exists (L :: Ls) => // ret.
have [F1 H1] := retL ret; have [F2 H2] := rets (ret ++ L).
exists (maxn F1 F2) => f; rw geq_max => /andP[/H1 E1 /H2 E2].
by rw E1 /= E2 catA.
Qed.

(* What cbextend appends before its for loop. *)
Lemma cbextend_unfold P b : positive P -> 0 < b ->
  exists F, forall f ret, F <= f ->
    cbextend f ret P b
    = cbextend_zip f (ret ++ cbextend_list P b [::])
        [seq (p, b`_\pi(p)) | p <- P].
Proof.
move=> P_pos b_gt0.
have x_gt0 := prodn_seq_gt0 P_pos.
set x := \prod_(p <- P) p in x_gt0.
pose a := b`_\pi(x); pose r := b`_\pi(x)^'.
have a_gt0 : 0 < a by apply: part_gt0.
have ES : [seq a`_\pi(p) | p <- P] = [seq b`_\pi(p) | p <- P].
  apply/eq_in_map => p pP; apply: partn_part.
  by apply: pi_of_dvd => //; apply: dvdn_prod_mem.
have Ezip : zip P [seq b`_\pi(p) | p <- P] = [seq (p, b`_\pi(p)) | p <- P].
  by rw -[X in zip X _]map_id zip_map.
have [Fx Hx] := array_prod_spec P.
have [Fi Hi] := ppi_ppo_spec b_gt0 x_gt0.
have [Fs Hs] := array_split_spec [::] P_pos a_gt0.
exists (maxn (maxn Fx Fi) Fs) => f ret.
rw !geq_max => /andP[/andP[/Hx Ex /Hi Ei] /Hs Es].
rw /cbextend Ex /= Ei /= Es /= ES size_map eqxx /=.
rw cbextend_forE ?add0n ?size_map // !drop0 take_size.
rw take_oversize ?size_map // Ezip; congr (cbextend_zip _ _ _).
rw /cbextend_list -/x -/r /array_add cats0; case: (P) => [|p0 P0] /=;
  by do ?[case: ifP => _]; rw -?cats1 ?cats0 -?catA.
Qed.

(* Every run of cbextend on positive integers. *)
Lemma cbextend_run P b : positive P -> 0 < b ->
  exists2 Ls, cb_pairs Ls [seq (p, b`_\pi(p)) | p <- P]
    & forall ret,
        returns (fun f => cbextend f ret P b) (ret ++ cbextend_list P b Ls).
Proof.
move=> P_pos b_gt0.
have ps_pos : all (fun xy => (0 < xy.1) && (0 < xy.2))
                  [seq (p, b`_\pi(p)) | p <- P].
  rw all_map; apply/allP => p pP /=.
  by rw part_gt0 andbT; apply: (allP P_pos).
have [Ls cbs rets] := cbextend_zip_spec ps_pos.
exists Ls => // ret.
have [F HF] := cbextend_unfold P_pos b_gt0.
have [Fz Hz] := rets (ret ++ cbextend_list P b [::]).
exists (maxn F Fz) => f; rw geq_max => /andP[/HF-> /Hz->].
by rw /cbextend_list !cats0 -!catA.
Qed.

Lemma partn_pi1' b : 0 < b -> b`_\pi(1)^' = b.
Proof. by move=> b_gt0; rw -[RHS]partnT //; apply: eq_partn => p; rw !inE. Qed.

(* An empty base: b is appended by step 1 and again by step 4. *)
Lemma cbextend_empty ret b : 0 < b ->
  returns (fun f => cbextend f ret [::] b)
          (ret ++ if b != 1 then [:: b; b] else [::]).
Proof.
move=> b_gt0; have [|[|L Ls] //= _ H] := @cbextend_run [::] b _ b_gt0; first by [].
have := H ret; rw /cbextend_list big_nil partn_pi1' //.
by case: ifP.
Qed.

(* Extending by 1 leaves a base of integers >= 2 as it is. *)
Lemma cbextend_one ret P : all (leq 2) P ->
  returns (fun f => cbextend f ret P 1) (ret ++ P).
Proof.
move=> P_ge2.
have P_pos : positive P by apply: sub_all P_ge2 => x; apply: ltnW.
have [F HF] := cbextend_unfold P_pos (isT : 0 < 1).
exists F.+1 => -[|f] //; move/ltnW/HF => ->.
have -> : cbextend_list P 1 [::] = [::].
  by rw /cbextend_list partn1 /=; case: (P).
have -> : [seq (p, 1`_\pi(p)) | p <- P] = [seq (p, 1) | p <- P].
  by apply: eq_map => p; rw partn1.
rw cats0; elim: P ret P_ge2 {P_pos HF} => [|p P IH] ret /=; first by rw cats0.
case/andP=> p_ge2 /IH{}IH.
have -> /= : (p != 1) by rw neq_ltn p_ge2 orbT.
by rw IH /array_add -cats1 -catA.
Qed.

Lemma span_prod B (s : seq nat) :
  (forall x, x \in s -> span B x) -> span B (\prod_(x <- s) x).
Proof.
elim: s => [|x s IH] H; first by rw big_nil; apply: span_one.
rw big_cons; apply: spanM; first by apply: H; rw inE eqxx.
by apply: IH => y ys; apply: H; rw inE ys orbT.
Qed.


Lemma cb_pairs_base (f : nat -> nat) Ls P :
  positive P -> pairwise coprime P ->
  (forall p, p \in P -> \pi(p).-nat (f p)) ->
  cb_pairs Ls [seq (p, f p) | p <- P] ->
  [/\ coprime_base (flatten Ls),
      all (pnat \pi(\prod_(p <- P) p)) (flatten Ls),
      forall p, p \in P -> span (flatten Ls) p
    & forall p, p \in P -> span (flatten Ls) (f p)].
Proof.
elim: P Ls => [|p P IH] [|L Ls] //= /andP[p_gt0 P_pos] /andP[co_p co_P] f_pi.
case=> -[cbL sp sf piL] /IH[] // => [q qP|cbLs piLs sP sfP].
  by apply: f_pi; rw inE qP orbT.
have X_gt0 := prodn_seq_gt0 P_pos.
have fp_pi : \pi(p).-nat (f p) by apply: f_pi; rw inE eqxx.
have piL' : all (pnat \pi(p)) L.
  have fp_gt0 : 0 < f p by case/andP: fp_pi.
  apply: sub_all piL => z; apply: sub_in_pnat => q _.
  rw (pi_ofM p_gt0 fp_gt0) inE => /orP[] //.
  exact: (pnatPpi fp_pi).
split.
- rw coprime_base_cat cbL cbLs /=.
  apply: allrel_coprime_pnat piL' piLs => //.
  by rw coprime_prodr.
- rw big_cons all_cat (all_pnat_pi_dvd _ _ piL') ?dvdn_mulr ?muln_gt0 ?p_gt0 //.
  by rw (all_pnat_pi_dvd _ _ piLs) ?dvdn_mull ?muln_gt0 ?p_gt0.
- move=> q; rw inE => /orP[/eqP->|/sP]; first exact: span_catl.
  exact: span_catr.
- move=> q; rw inE => /orP[/eqP->|/sfP]; first exact: span_catl.
  exact: span_catr.
Qed.

(* Extending a nonempty coprime base. *)
Lemma cbextend_spec P b : coprime_base P -> P != [::] -> 0 < b ->
  exists2 L,
    [/\ coprime_base L, L != [::], forall p, p \in P -> span L p & span L b]
    & forall ret, returns (fun f => cbextend f ret P b) (ret ++ L).
Proof.
move=> cbP Pn0 b_gt0.
have P_pos := coprime_base_positive cbP.
have [_ co_P] := andP cbP.
have [Ls cbs rets] := cbextend_run P_pos b_gt0.
have x_gt0 := prodn_seq_gt0 P_pos.
set x := \prod_(p <- P) p in x_gt0.
have [] := @cb_pairs_base (fun p => b`_\pi(p)) Ls P P_pos co_P _ cbs.
  by move=> p _; apply: part_pnat.
move=> cbLs piLs sP sbP.
pose r := b`_\pi(x)^'.
have r_gt0 : 0 < r by apply: part_gt0.
pose Lr := if r != 1 then [:: r] else [::].
have EL : cbextend_list P b Ls = Lr ++ flatten Ls.
  by rw /cbextend_list -/x -/r; case: (P) Pn0.
exists (Lr ++ flatten Ls); last by move=> ret; rw -EL.
have sL p : p \in P -> span (Lr ++ flatten Ls) p.
  by move=> /sP; apply: span_catr.
split=> //.
- rw coprime_base_cat cbLs /=; apply/andP; split.
    rw /Lr; case: eqP => // /eqP rn1.
    by rw /coprime_base /= ltn_neqAle eq_sym rn1 r_gt0.
  have pir : all (pnat \pi(r)) Lr by rw /Lr; case: ifP => //=; rw pnat_pi.
  apply: allrel_coprime_pnat pir piLs => //.
  by rw coprime_sym /r; apply: (@pnat_coprime \pi(x)); rw ?pnat_pi ?part_pnat.
- have [p pP] : exists p, p \in P.
    by case: (P) Pn0 => // p P' _; exists p; rw inE eqxx.
  apply: span_gt1 (sL p pP) _.
  by have /andP[/allP ge2 _] := cbP; apply: ge2.
- rw -(partnC \pi(x) b_gt0) -/r; apply: spanM; last first.
    apply: span_catl; rw /Lr; case: eqP => [->|_]; first exact: span_one.
    by apply: span_mem; rw inE.
  rw partn_pi_prod //; apply: span_catr.
  rw -(big_map (fun p => b`_\pi(p)) predT id).
  by apply: span_prod => y /mapP[p /sbP sp ->].
Qed.

(* ===================================================================== *)
(* Greatest common divisors inside a span                                 *)
(* ===================================================================== *)

Lemma gcdn_pow_coprime f e e' X Y : coprime f X -> coprime f Y ->
  gcdn (f ^ e * X) (f ^ e' * Y) = f ^ minn e e' * gcdn X Y.
Proof.
wlog le_e : e e' X Y / e <= e' => [H|] co_X co_Y.
  case/orP: (leq_total e e') => le_e; first exact: H.
  by rw gcdnC minnC [gcdn X Y]gcdnC; apply: H.
rw (minn_idPl le_e) -(subnKC le_e) expnD -mulnA -muln_gcdr.
by rw Gauss_gcdr // coprime_sym coprimeXl.
Qed.

Lemma span_gcd B x y : pairwise coprime B ->
  span B x -> span B y -> span B (gcdn x y).
Proof.
elim: B x y => [|f B IH] x y /=.
  by move=> _ /span_nil-> /span_nil->; apply: span_one.
case/andP=> co_f co_B /span_cons_inv[e [X [-> sX]]] /span_cons_inv[e' [Y [-> sY]]].
rw gcdn_pow_coprime ?(span_coprime co_f) //.
apply: spanM; first by apply: spanX; apply: span_mem; rw inE eqxx.
by apply: span_sub (IH _ _ co_B sX sY) => z zB; rw inE zB orbT.
Qed.

(* ===================================================================== *)
(* Selections by bits                                                     *)
(* ===================================================================== *)

Lemma select_bitE want i k q :
  select_bit want i k q = sel (fun k' => bit i k' == want) k q.
Proof. by elim: q k => //= x q IH k; rw !IH. Qed.

Lemma sel_ext_in keep keep' k q :
  (forall j, k <= j < k + size q -> keep j = keep' j) ->
  sel keep k q = sel keep' k q.
Proof.
elim: q k => //= x q IH k H.
rw (H k) ?leqnn ?addnS ?ltnS ?leq_addr // IH // => j /andP[lt_kj lt_j].
by apply: H; rw (ltnW lt_kj) addnS -addSn.
Qed.

Lemma sel_none keep k q :
  (forall j, k <= j -> ~~ keep j) -> sel keep k q = [::].
Proof.
elim: q k => //= x q IH k H; rw (negbTE (H k (leqnn k))).
by apply: IH => j /ltnW; apply: H.
Qed.

Lemma sel_pred1 k0 k q : k0 <= k -> k < k0 + size q ->
  sel (pred1 k) k0 q = [:: nth 0 q (k - k0)].
Proof.
elim: q k0 => [|x q IH] k0 /=; first by rw addn0 leqNgt => /negbTE->.
rw leq_eqVlt => /orP[/eqP <- _|lt_k le_k].
  rw eqxx subnn /= sel_none // => j; rw /= neq_ltn => ->.
  by rw orbT.
rw (ltn_eqF lt_k) IH // ?addSn -?addnS //.
by rw -[k - k0]prednK ?subn_gt0 //= subnS.
Qed.

Lemma all_sel (a : pred nat) keep k q : all a q -> all a (sel keep k q).
Proof.
elim: q k => //= x q IH k /andP[ax /IH aq].
by case: ifP => _ /=; rw ?ax aq.
Qed.

Lemma gcdn_sel (A B : pred nat) k q : pairwise coprime q ->
  gcdn (\prod_(x <- sel A k q) x) (\prod_(x <- sel B k q) x)
  = \prod_(x <- sel (predI A B) k q) x.
Proof.
elim: q k => [|x q IH] k /=; first by rw !big_nil.
case/andP=> co_x co_q; have co_sel keep j :
    coprime x (\prod_(y <- sel keep j q) y).
  by rw coprime_prodr all_sel.
case: (A k); case: (B k); rw /= ?big_cons.
- by rw -muln_gcdr IH.
- by rw gcdnC Gauss_gcdr 1?coprime_sym // gcdnC IH.
- by rw Gauss_gcdr 1?coprime_sym // IH.
- exact: IH.
Qed.

Lemma bit0 k : bit 0 k = odd k.
Proof. by rw /bit expn0 divn1. Qed.

Lemma bitS j k : bit j.+1 k = bit j (k %/ 2).
Proof. by rw /bit expnS divnMA. Qed.

Lemma ltn_half_double k n : k < n.*2 -> k %/ 2 < n.
Proof.
move=> lt_k; rw divn2 -ltn_double; apply: leq_ltn_trans lt_k.
by rw -[X in _ <= X](odd_double_half k) leq_addl.
Qed.

(* Two numbers below 2^b with the same b low bits are equal. *)
Lemma agree_inj b k k' : k < 2 ^ b -> k' < 2 ^ b -> agree b k k' -> k = k'.
Proof.
elim: b k k' => [|b IH] k k'.
  by rw expn0 !ltnS !leqn0 => /eqP-> /eqP->.
rw expnS !mul2n => lt_k lt_k' /allP ag.
have Eodd : odd k' = odd k.
  by have := ag 0; rw !bit0 mem_iota /= => /(_ isT) /eqP.
have Ehalf : k %/ 2 = k' %/ 2.
  apply: IH; try exact: ltn_half_double.
  apply/allP => j; rw mem_iota add0n /= => lt_j.
  by rw -!bitS; apply: ag; rw mem_iota.
by rw -(odd_double_half k) -(odd_double_half k') Eodd -!divn2 Ehalf.
Qed.

Lemma agreeS i k k' :
  agree i.+1 k k' = agree i k k' && (bit i k' == bit i k).
Proof. by rw /agree -addn1 iotaD all_cat /= andbT add0n. Qed.

(* ===================================================================== *)
(* cbmerge                                                                *)
(* ===================================================================== *)

Lemma cbmerge_b_mono n b : monotone (fun f => cbmerge_b f n b).
Proof.
move=> f; elim: f b => [|f IH] b [|g] w //=; rw ltnS => le_fg.
by case: ifP => // _; apply: IH.
Qed.

Lemma cbmerge_b_from n k b0 : n <= b0 + k ->
  (forall j, 0 < j -> j <= b0 -> 2 ^ j < n) ->
  exists b, [/\ b0 < b, n <= 2 ^ b, forall j, 0 < j -> j < b -> 2 ^ j < n
               & returns (fun f => cbmerge_b f n b0) b].
Proof.
elim: k b0 => [|k IH] b0 le_n below.
  exists b0.+1; split=> //.
  - apply: leq_trans le_n _; rw addn0; apply: ltnW.
    by apply: leq_trans (ltn_expl _ (isT : 1 < 2)); rw ltnS leqnSn.
  - exists 1 => -[|f] //= _; rw ltnNge.
    have -> // : n <= 2 ^ b0.+1.
    apply: leq_trans le_n _; rw addn0; apply: ltnW.
    by apply: leq_trans (ltn_expl _ (isT : 1 < 2)); rw ltnS leqnSn.
have [lt_n|le_n2] := ltnP (2 ^ b0.+1) n; last first.
  exists b0.+1; split=> //.
  by exists 1 => -[|f] //= _; rw ltnNge le_n2.
have [|j j_gt0|b [lt_b le_b min_b [F HF]]] := IH b0.+1.
- by rw addSnnS.
- by rw leq_eqVlt ltnS => /orP[/eqP->|/below]; last apply.
exists b; split=> //; first exact: ltnW.
by exists F.+1 => -[|f] //; rw ltnS /= lt_n => /HF.
Qed.

(* The count of rounds: the least b >= 1 with 2^b >= n. *)
Lemma cbmerge_b_spec n :
  exists b, [/\ 0 < b, n <= 2 ^ b, forall j, 0 < j -> j < b -> 2 ^ j < n
               & returns (fun f => cbmerge_b f n 0) b].
Proof.
have [|j j_gt0|b H] := @cbmerge_b_from n n 0; first by rw add0n.
  by rw leqNgt j_gt0.
by exists b.
Qed.

Lemma cbmerge_loop_mono s q b i : monotone (fun f => cbmerge_loop f s q b i).
Proof.
move=> f; elim: f s i => [|f IH] s i [|g] w //=; rw ltnS => le_fg.
case: ifP => // _.
case E1: (array_prod f _) => [x0||] //=; rw (array_prod_mono le_fg E1) /=.
case E2: (cbextend f _ _ _) => [t||] //=; rw (cbextend_mono le_fg E2) /=.
case E3: (array_prod f _) => [x1||] //=; rw (array_prod_mono le_fg E3) /=.
case E4: (cbextend f _ _ _) => [s'||] //=; rw (cbextend_mono le_fg E4) /=.
exact: IH.
Qed.

Lemma cbmerge_mono s p q : monotone (fun f => cbmerge f s p q).
Proof.
move=> f g w le_fg; rw /cbmerge.
case E1: (cbmerge_b f _ _) => [b||] //=; rw (cbmerge_b_mono le_fg E1) /=.
exact: cbmerge_loop_mono.
Qed.

Section CbMerge.

Variables P Q : seq nat.
Hypothesis Q_pos : positive Q.
Hypothesis Q_co : pairwise coprime Q.

Let x_gt0 want i : 0 < \prod_(x <- select_bit want i 0 Q) x.
Proof. by apply: prodn_seq_gt0; rw select_bitE; apply: all_sel. Qed.

(* One round of the loop. *)
Lemma cbmerge_round s i : merge_inv P Q s i ->
  exists s', merge_inv P Q s' i.+1 /\
    exists F, forall f, F <= f ->
      [/\ array_prod f (select_bit false i 0 Q)
          = Ret (\prod_(x <- select_bit false i 0 Q) x),
          array_prod f (select_bit true i 0 Q)
          = Ret (\prod_(x <- select_bit true i 0 Q) x)
        & exists2 t,
            cbextend f [::] s (\prod_(x <- select_bit false i 0 Q) x) = Ret t
          & cbextend f [::] t (\prod_(x <- select_bit true i 0 Q) x) = Ret s'].
Proof.
case=> cbs sn0 sP sG.
set x0 := \prod_(x <- select_bit false i 0 Q) x.
set x1 := \prod_(x <- select_bit true i 0 Q) x.
have [t [cbt tn0 st sx0] rett] := cbextend_spec cbs sn0 (x_gt0 false i).
have [s' [cbs' s'n0 ss' sx1] rets'] := cbextend_spec cbt tn0 (x_gt0 true i).
have up y : span s y -> span s' y.
  by move=> sy; apply: span_refine ss' _; apply: span_refine sy.
have sx want : span s' (\prod_(x <- select_bit want i 0 Q) x).
  by case: want => //; apply: span_refine sx0.
exists s'; split.
  split=> // [p /sP/up //|_ k].
  have E1 : sel (agree i.+1 k) 0 Q
            = sel (predI (agree i k) (fun k' => bit i k' == bit i k)) 0 Q.
    by apply: sel_ext_in => j _; rw /= agreeS.
  rw E1; case: (posnP i) => [i0|i_gt0].
    have -> : sel (predI (agree i k) (fun k' => bit i k' == bit i k)) 0 Q
              = select_bit (bit i k) i 0 Q.
      by rw select_bitE; apply: sel_ext_in => j _; rw /= i0.
    exact: sx.
  rw -gcdn_sel // -select_bitE; apply: span_gcd => //.
    by case/andP: cbs'.
  exact/up/sG.
have [F0 H0] := array_prod_spec (select_bit false i 0 Q).
have [F1 H1] := array_prod_spec (select_bit true i 0 Q).
have [Ft Ht] := rett [::]; have [Fs Hs] := rets' [::].
exists (maxn (maxn F0 F1) (maxn Ft Fs)) => f.
rw !geq_max => /andP[/andP[/H0 E0 /H1 E1] /andP[/Ht Et /Hs Es]].
by split=> //; exists t.
Qed.

Lemma cbmerge_loop_spec b d i s : i + d = b -> merge_inv P Q s i ->
  exists2 s', merge_inv P Q s' b
            & returns (fun f => cbmerge_loop f s Q b i) s'.
Proof.
elim: d i s => [|d IH] i s.
  rw addn0 => <- inv; exists s => //.
  by exists 1 => -[|f] //= _; rw eqxx.
rw addnS -addSn => Eb inv.
have [s' [inv' [F HF]]] := cbmerge_round inv.
have [s'' inv'' [F' HF']] := IH _ _ Eb inv'.
exists s'' => //; exists (maxn F F').+1 => -[|f] //.
rw ltnS geq_max => /andP[/HF[E0 E1 [t Et Es]] /HF' E'] /=.
have lt_ib : i < b by rw -Eb addSn ltnS leq_addr.
by rw (ltn_eqF lt_ib) E0 /= Et /= E1 /= Es.
Qed.

(* Merging a nonempty coprime base P with the coprime list Q. *)
Lemma cbmerge_spec : coprime_base P -> P != [::] ->
  exists2 L,
    [/\ coprime_base L, L != [::], forall p, p \in P -> span L p
      & forall q, q \in Q -> span L q]
    & returns (fun f => cbmerge f [::] P Q) L.
Proof.
move=> cbP Pn0.
have [b [b_gt0 le_b _ [Fb Hb]]] := cbmerge_b_spec (size Q).
have inv0 : merge_inv P Q P 0 by split=> // p; apply: span_mem.
have [L [cbL Ln0 sP sG] [F HF]] := cbmerge_loop_spec (add0n b) inv0.
exists L; last first.
  exists (maxn Fb F) => f; rw geq_max => /andP[/Hb Eb /HF E].
  by rw /cbmerge Eb.
split=> // q /(nthP 0)[k lt_k <-].
have lt_k2 := leq_trans lt_k le_b.
have E : sel (agree b k) 0 Q = sel (pred1 k) 0 Q.
  apply: sel_ext_in => j; rw add0n /= => lt_j.
  apply/idP/eqP => [ag|->]; last by apply/allP => ? _.
  by apply/esym/(agree_inj lt_k2 (leq_trans lt_j le_b)).
by have := sG b_gt0 k; rw E sel_pred1 // big_seq1 subn0.
Qed.

End CbMerge.

(* Merging with an empty Q: one round, both extensions by the empty
   product 1. *)
Lemma cbmerge_nil P : all (leq 2) P ->
  returns (fun f => cbmerge f [::] P [::]) P.
Proof.
move=> P_ge2; have [F HF] := cbextend_one [::] P_ge2.
exists F.+3 => -[|[|[|f]]] //; rw !ltnS => le_f.
have E g : f <= g -> cbextend g [::] P 1 = Ret P.
  by move=> le_g; apply: HF; apply: leq_trans le_g.
by rw /cbmerge /= /array_prod /= !E //= ?E // ltnW.
Qed.

(* ===================================================================== *)
(* cb                                                                     *)
(* ===================================================================== *)

Lemma cb_mono ret s from to : monotone (fun f => cb f ret s from to).
Proof.
move=> f; elim: f ret from to => [|f IH] ret from to [|g] w //=.
rw ltnS => le_fg; case: ifP => // _.
case E1: (cb f _ _ _ _) => [p||] //=; rw (IH _ _ _ _ _ le_fg E1) /=.
case E2: (cb f _ _ _ _) => [q||] //=; rw (IH _ _ _ _ _ le_fg E2) /=.
by case: ifP => // _; apply: cbmerge_mono.
Qed.

Lemma array_cb_mono ret s : monotone (fun f => array_cb f ret s).
Proof.
by move=> f g w le_fg; rw /array_cb; case: ifP => // _; apply: cb_mono.
Qed.

Lemma span_of_nil L x : span [::] x -> span L x.
Proof. by move/span_nil->; apply: span_one. Qed.

Lemma cb_spec S from to : positive S -> from <= to -> to < size S ->
  exists2 L,
    coprime_base L /\ (forall x, x \in slice from to S -> span L x)
    & returns (fun f => cb f [::] S from to) L.
Proof.
move=> S_pos le_ft.
elim/range_ind: le_ft => [i|{}from {}to mid lt_ft Em Em1].
  move=> lt_i; have x_gt0 : 0 < nth 0 S i by apply: (allP S_pos); apply: mem_nth.
  exists (if nth 0 S i != 1 then [:: nth 0 S i] else [::]).
    rw slice1 //; split.
      case: eqP => // /eqP xn1.
      by rw /coprime_base /= ltn_neqAle eq_sym xn1 x_gt0.
    move=> x; rw inE => /eqP->; case: eqP => [->|_]; first exact: span_one.
    by apply: span_mem; rw inE.
  exists 1 => -[|f] //= _; rw subnn /= /array_get lt_i /=.
  by rw (gtn_eqF x_gt0); case: ifP.
move=> le_fm lt_mt IH1 IH2 lt_t.
have [P [cbP sP] [F1 H1]] := IH1 (ltn_trans lt_mt lt_t).
have [Q [cbQ sQ] [F2 H2]] := IH2 lt_t.
have run L : (forall f, maxn F1 F2 <= f ->
    (if (size Q != 0) && (size P != 0) then cbmerge f [::] P Q
     else if (size Q == 0) && (size P != 0) then Ret (array_add_array [::] P)
     else if (size Q != 0) && (size P == 0) then Ret (array_add_array [::] Q)
     else Ret [::]) = Ret L) ->
    returns (fun f => cb f [::] S from to) L.
  move=> HL; exists (maxn F1 F2).+1 => -[|f] //; rw ltnS => le_f.
  move: (le_f); rw geq_max => /andP[/H1 E1 /H2 E2].
  by rw /= subn_eq0 leqNgt lt_ft /= Em Em1 E1 /= E2 /= HL.
have mem_split x : x \in slice from to S ->
    (x \in slice from mid S) || (x \in slice mid.+1 to S).
  by rw (slice_cat _ le_fm lt_mt) mem_cat.
case: (altP (P =P [::])) => [P0|Pn0]; case: (altP (Q =P [::])) => [Q0|Qn0].
- exists [::]; last by apply: run => f _; rw P0 Q0.
  split=> // x /mem_split/orP[/sP|/sQ]; rw ?P0 ?Q0 //.
- exists Q; last first.
    apply: run => f _; rw P0 /=.
    by move: Qn0; rw -size_eq0 => /negbTE->.
  split=> // x /mem_split/orP[/sP|/sQ] //.
  by rw P0; apply: span_of_nil.
- exists P; last first.
    apply: run => f _; rw Q0 /=.
    by move: Pn0; rw -size_eq0 => /negbTE->.
  split=> // x /mem_split/orP[/sP|/sQ] //.
  by rw Q0; apply: span_of_nil.
have /andP[_ Q_co] := cbQ.
have [L [cbL _ sLP sLQ] [F HF]] :=
  cbmerge_spec (coprime_base_positive cbQ) Q_co cbP Pn0.
exists L.
  split=> // x /mem_split/orP[/sP|/sQ]; exact: span_refine.
exists (maxn F (maxn F1 F2)).+1 => -[|f] //; rw ltnS !geq_max.
case/and3P=> /HF E /H1 E1 /H2 E2.
rw /= subn_eq0 leqNgt lt_ft /= Em Em1 E1 /= E2 /=.
by move: Pn0 Qn0; rw -!size_eq0 => -> ->.
Qed.

Lemma array_cb_spec S : S != [::] -> positive S ->
  exists2 L,
    coprime_base L /\ (forall x, x \in S -> span L x)
    & returns (fun f => array_cb f [::] S) L.
Proof.
move=> Sn0 S_pos.
have S_gt0 : 0 < size S by rw lt0n size_eq0.
have [|L [cbL sL] ret] := @cb_spec S 0 (size S - 1) S_pos (leq0n _).
  by rw subn1 ltn_predL.
exists L; first by split=> // x xS; apply: sL; rw slice_all.
by rw /array_cb S_gt0.
Qed.

(* Products of powers, with the exponents listed. *)
Lemma span_exponents B s : span B s ->
  exists2 es, size es = size B & s = \prod_(be <- zip B es) be.1 ^ be.2.
Proof.
elim: B s => [|f B IH] s.
  by move/span_nil->; exists [::] => //; rw big_nil.
case/span_cons_inv=> e [z [-> /IH[es Es ->]]].
by exists (e :: es); rw /= ?Es // big_cons.
Qed.

Lemma exponents_span B es : span B (\prod_(be <- zip B es) be.1 ^ be.2).
Proof.
elim: B es => [|f B IH] [|e es] /=; rw ?big_nil ?big_cons;
  try exact: span_one.
apply: spanM; first by apply: spanX; apply: span_mem; rw inE eqxx.
by apply: span_sub (IH es) => z zB; rw inE zB orbT.
Qed.

(* ===================================================================== *)
(* find_factor                                                            *)
(* ===================================================================== *)

Lemma find_factor_mono out a0 a p from to :
  monotone (fun f => find_factor f out a0 a p from to).
Proof.
move=> f; elim: f out a from to => [|f IH] out a from to [|g] w //=.
rw ltnS => le_fg; case: ifP => _.
  case: (array_get p from) => //= pf.
  case E: (reduce f _ _) => [[m c]||] //=.
  by rw (reduce_mono le_fg E).
case E1: (prod f _ _ _) => [y||] //=; rw (prod_mono le_fg E1) /=.
case E2: (ppi_ppo f _ _) => [[b c2]||] //=; rw (ppi_ppo_mono le_fg E2) /=.
case E3: (find_factor f _ _ _ _ _ _) => [[out1 r1]||] //=.
rw (IH _ _ _ _ _ _ le_fg E3) /=; case: ifP => // _.
case E4: (find_factor f _ _ _ _ _ _) => [[out2 r2]||] //=.
by rw (IH _ _ _ _ _ _ le_fg E4).
Qed.

Lemma array_find_factor_mono out a p :
  monotone (fun f => array_find_factor f out a p).
Proof.
move=> f g w le_fg; rw /array_find_factor; case: ifP => // _.
exact: find_factor_mono.
Qed.

(* reduce needs a nonzero p to hand back anything. *)
Lemma reduce_returns_gt0 p a v : returns (fun f => reduce f p a) v -> 0 < p.
Proof.
by case=> F /(_ F.+1 (leqnSn _)); case: p.
Qed.

(* The base case of find_factor. *)
Lemma find_factor_leaf out a0 a P i v :
  i < size P -> returns (fun f => reduce f (nth 0 P i) a) v ->
  returns (fun f => find_factor f out a0 a P i i)
    (if v.2 != 1 then (out, false)
     else if a0 != nth 0 P i
          then (out ++ [:: a0; nth 0 P i; a0 %/ nth 0 P i], false)
          else (out, true)).
Proof.
move=> lt_i red; have p_gt0 := reduce_returns_gt0 red.
case: red => F HF; exists F.+1 => -[|f] //; rw ltnS => /HF E.
rw /= subnn /= /array_get lt_i /= E /=; case: v {HF E} => m c /=.
case: ifP => // _; case: ifP => // _.
by rw fdiv_qE //= /array_add -!cats1 -!catA.
Qed.

Lemma reduce_power p e : 1 < p ->
  exists m, returns (fun f => reduce f p (p ^ e)) (m, 1).
Proof.
move=> p_gt1; have p_gt0 := ltnW p_gt1.
have pe_gt0 : 0 < p ^ e by rw expn_gt0 p_gt0.
have [m [c [red Ea npc]]] := reduce_spec p_gt1 pe_gt0.
exists m; suff -> : 1 = c by [].
have c_gt0 : 0 < c.
  by case: (c) Ea => // /eqP; rw muln0 eq_sym expn_eq0 (gtn_eqF p_gt0).
case: (leqP m e) => [le_me|lt_em].
  move: Ea; rw -(subnKC le_me) expnD => /eqP; rw eqn_pmul2l ?expn_gt0 ?p_gt0 //.
  move/eqP=> Ec; move: npc; rw Ec; case: (e - m) => [|k]; first by rw expn0.
  by rw expnS dvdn_mulr.
have : p ^ e < p ^ m * c.
  apply: leq_trans (leq_pmulr _ c_gt0).
  by rw ltn_exp2l.
by rw Ea ltnn.
Qed.

Lemma span_cat_inv L R a :
  span (L ++ R) a -> exists u v, [/\ a = u * v, span L u & span R v].
Proof.
elim=> [|x y xLR _ [u [v [-> su sv]]]].
  by exists 1, 1; split; rw ?muln1 //; apply: span_one.
move: xLR; rw mem_cat => /orP[xL|xR].
  by exists (x * u), v; split; rw ?mulnA //; apply: span_mul.
by exists u, (x * v); split; rw 1?mulnCA //; apply: span_mul.
Qed.

Lemma pairwise_slice (r : rel nat) from to P :
  pairwise r P -> pairwise r (slice from to P).
Proof.
rw /slice -{1}(cat_take_drop from P) pairwise_cat => /and3P[_ _].
by rw -{1}(cat_take_drop (to.+1 - from) (drop from P)) pairwise_cat
      => /and3P[_ ->].
Qed.

Lemma coprime_base_nth_neq P i j : coprime_base P ->
  i < j -> j < size P -> nth 0 P i != nth 0 P j.
Proof.
case/andP=> /allP P_ge2 /(pairwiseP 0) P_co lt_ij lt_j.
have lt_i := ltn_trans lt_ij lt_j.
apply/eqP => E; have := P_co i j lt_i lt_j lt_ij.
rw E /coprime gcdnn => /eqP Ej.
by have := P_ge2 _ (mem_nth 0 lt_j); rw Ej.
Qed.

(* The two parts handed to the halves of the base. *)
Lemma ppi_ppo_span L R a : positive L -> positive R ->
  allrel coprime L R -> span (L ++ R) a ->
  span L a`_\pi(\prod_(x <- L) x) /\ span R a`_\pi(\prod_(x <- L) x)^'.
Proof.
move=> L_pos R_pos co_LR /span_cat_inv[u [v [-> su sv]]].
have y_gt0 := prodn_seq_gt0 L_pos; set y := \prod_(x <- L) x in y_gt0 *.
have u_gt0 := span_gt0 L_pos su.
have u_pi : \pi(y).-nat u.
  apply: span_pnat su; apply/allP => x xL.
  apply: pnat_pi_dvd (dvdn_prod_mem xL) y_gt0 _.
  by rw pnat_pi // (allP L_pos).
have co_yv : coprime y v.
  apply: span_coprime sv; apply/allP => z zR.
  rw coprime_sym coprime_prodr; apply/allP => x xL.
  by rw coprime_sym; apply: (allrelP co_LR).
have v_gt0 := span_gt0 R_pos sv.
have v_pi : \pi(y)^'.-nat v by rw -coprime_pi'.
rw !partnM // (part_pnat_id u_pi) (part_p'nat v_pi) muln1.
rw (@part_p'nat _ u) ?pnatNK // (part_pnat_id v_pi) mul1n.
by [].
Qed.

Lemma find_factor_span P : coprime_base P ->
  forall from to, from <= to -> to < size P ->
  forall a a0 out, span (slice from to P) a ->
  returns (fun f => find_factor f out a0 a P from to)
          (ff_result out a0 P from to).
Proof.
move=> cbP from to le_ft.
have P_pos := coprime_base_positive cbP.
have /andP[/allP P_ge2 P_co] := cbP.
elim/range_ind: le_ft => [i|{}from {}to mid lt_ft Em Em1].
  move=> lt_i a a0 out; rw slice1 //.
  case/span_cons_inv=> e [z [-> /span_nil->]]; rw muln1.
  have [m red] := @reduce_power (nth 0 P i) e (P_ge2 _ (mem_nth 0 lt_i)).
  have := find_factor_leaf out a0 lt_i red.
  by rw /ff_result /= eqxx.
move=> le_fm lt_mt IH1 IH2 lt_t a a0 out sa.
have lt_m := ltn_trans lt_mt lt_t.
set L := slice from mid P in IH1; set R := slice mid.+1 to P in IH2.
have L_pos : positive L by apply: all_slice.
have R_pos : positive R by apply: all_slice.
have co_LR : allrel coprime L R.
  have := pairwise_slice from to P_co.
  by rw (slice_cat _ le_fm lt_mt) pairwise_cat => /and3P[].
have [sb sc] : span L a`_\pi(\prod_(x <- L) x)
            /\ span R a`_\pi(\prod_(x <- L) x)^'.
  by apply: ppi_ppo_span => //; rw -slice_cat.
have a_gt0 : 0 < a by apply: span_gt0 sa; apply: all_slice.
have y_gt0 : 0 < \prod_(x <- L) x by apply: prodn_seq_gt0.
have [Fy Hy] := prod_spec le_fm lt_m.
have [Fi Hi] := ppi_ppo_spec a_gt0 y_gt0.
have [F1 H1] := IH1 lt_m _ a0 out sb.
pose p0 := nth 0 P from; pose p1 := nth 0 P from.+1.
pose res := ff_result out a0 P from to.
have neq_ft : (from == to) = false by apply: ltn_eqF.
have [neq0|eq0] := boolP (a0 != p0).
  exists (maxn (maxn Fy Fi) F1).+1 => -[|f] //.
  rw ltnS !geq_max => /andP[/andP[/Hy Ey /Hi Ei] /H1 E1].
  rw /= subn_eq0 leqNgt lt_ft /= Em Em1 Ey /= Ei /= E1.
  by rw /ff_result neq0.
have [Efm|neq_fm] := eqVneq from mid.
  have neq1 : a0 != nth 0 P mid.+1.
    move/negbNE/eqP: (eq0) => ->; rw /p0 Efm.
    by apply: coprime_base_nth_neq => //; apply: leq_ltn_trans lt_mt lt_t.
  have [F2 H2] := IH2 lt_t _ a0 out sc.
  have R1 : ff_result out a0 P from mid = (out, true).
    by rw /ff_result (negbTE eq0) Efm eqxx.
  have R2 : ff_result out a0 P mid.+1 to
            = (out ++ [:: a0; p1; a0 %/ p1], false).
    by rw /ff_result neq1 /p1 Efm.
  have R0 : ff_result out a0 P from to
            = (out ++ [:: a0; p1; a0 %/ p1], false).
    by rw /ff_result (negbTE eq0) neq_ft.
  exists (maxn (maxn Fy Fi) (maxn F1 F2)).+1 => -[|f] //.
  rw ltnS !geq_max => /andP[/andP[/Hy Ey /Hi Ei] /andP[/H1 E1 /H2 E2]].
  by rw /= subn_eq0 leqNgt lt_ft /= Em Em1 Ey /= Ei /= E1 R1 /= E2 R2 R0.
exists (maxn (maxn Fy Fi) F1).+1 => -[|f] //.
rw ltnS !geq_max => /andP[/andP[/Hy Ey /Hi Ei] /H1 E1].
rw /= subn_eq0 leqNgt lt_ft /= Em Em1 Ey /= Ei /= E1.
by rw /ff_result -/p0 (negbTE eq0) (negbTE neq_fm) neq_ft.
Qed.

Lemma array_find_factor_span P a out : coprime_base P -> P != [::] ->
  span P a ->
  returns (fun f => array_find_factor f out a P)
          (ff_result out a P 0 (size P - 1)).
Proof.
move=> cbP Pn0 sa; have P_gt0 : 0 < size P by rw lt0n size_eq0.
rw /array_find_factor P_gt0; apply: find_factor_span => //.
  by rw subn1 ltn_predL.
by rw slice_all.
Qed.

(* ===================================================================== *)
(* The specification, claim by claim                                      *)
(* ===================================================================== *)

(** C1. For every finite multiset S of positive integers with at least one
    value >= 2, the array produced by cb over S is a coprime base for S:
    every output element is >= 2, the output elements are pairwise coprime,
    and every element of S is a product of powers of output elements (the
    exponents es are listed along the base B).  In particular
    cb({6, 10, 15}) = {2, 3, 5}. *)
Theorem cb_coprime_base :
  (forall S : seq nat, positive S -> has (leq 2) S ->
     exists B,
       [/\ returns (fun f => array_cb f [::] S) B,
           all (leq 2) B, pairwise coprime B
         & forall s, s \in S ->
             exists2 es, size es = size B
                       & s = \prod_(be <- zip B es) be.1 ^ be.2])
  /\ (exists2 B, returns (fun f => array_cb f [::] [:: 6; 10; 15]) B
               & perm_eq B [:: 2; 3; 5]).
Proof.
split=> [S S_pos S_ge2|].
  have Sn0 : S != [::] by case: (S) S_ge2.
  have [B [/andP[B_ge2 B_co] sB] ret] := array_cb_spec Sn0 S_pos.
  by exists B; split=> // s /sB/span_exponents.
exists [:: 5; 2; 3] => //.
by apply: (returns_at (f := 30)); [apply: array_cb_mono | vm_compute].
Qed.

Lemma cb_coprime_base_witness :
  exists B,
    [/\ returns (fun f => array_cb f [::] [:: 4; 6; 1]) B,
        all (leq 2) B, pairwise coprime B
      & forall s, s \in [:: 4; 6; 1] ->
          exists2 es, size es = size B
                    & s = \prod_(be <- zip B es) be.1 ^ be.2].
Proof. exact: (proj1 cb_coprime_base [:: 4; 6; 1] isT isT). Defined.

(** C2, as amended.  For every positive a and every nonempty list P of
    pairwise coprime integers >= 2 such that a is a product of powers of
    elements of P, find_factor(a, a, P) returns; it returns true exactly
    when P = [a], and then appends nothing; otherwise it returns false, and
    when the first base element P[0] divides a and differs from a, the
    output array gains exactly the triple (a, P[0], a / P[0]), which
    identifies a non-trivial factor of a: P[0] * (a / P[0]) = a and
    1 < P[0] < a. *)
Theorem find_factor_on_base a P out :
  0 < a -> coprime_base P -> P != [::] -> span P a ->
  exists res,
    [/\ returns (fun f => array_find_factor f out a P) res,
        res.2 = (P == [:: a]),
        res.2 -> res.1 = out
      & nth 0 P 0 %| a -> a != nth 0 P 0 ->
        [/\ res.1 = out ++ [:: a; nth 0 P 0; a %/ nth 0 P 0],
            nth 0 P 0 * (a %/ nth 0 P 0) = a, 1 < nth 0 P 0
          & nth 0 P 0 < a]].
Proof.
move=> a_gt0 cbP Pn0 sa.
exists (ff_result out a P 0 (size P - 1)).
have P_gt0 : 0 < size P by rw lt0n size_eq0.
have /andP[/allP P_ge2 _] := cbP.
split; first exact: array_find_factor_span.
- rw /ff_result; case: eqP => [Ea|na] /=; last first.
    by apply/esym/eqP => EP; move: na; rw EP.
  by case: (P) P_gt0 Ea => [|p0 [|p1 P']] //= _ ->; rw ?eqxx // eqseq_cons eqxx.
- by rw /ff_result; case: ifP => // _; case: ifP.
move=> pa na; rw /ff_result na /=; split=> //.
- by rw mulnC divnK.
- by apply: P_ge2; apply: mem_nth.
- by rw ltn_neqAle eq_sym na dvdn_leq.
Qed.

Lemma find_factor_on_base_witness :
  exists res,
    [/\ returns (fun f => array_find_factor f [::] 4 [:: 2]) res,
        res.2 = ([:: 2] == [:: 4]),
        res.2 -> res.1 = [::]
      & nth 0 [:: 2] 0 %| 4 -> 4 != nth 0 [:: 2] 0 ->
        [/\ res.1 = [::] ++ [:: 4; nth 0 [:: 2] 0; 4 %/ nth 0 [:: 2] 0],
            nth 0 [:: 2] 0 * (4 %/ nth 0 [:: 2] 0) = 4, 1 < nth 0 [:: 2] 0
          & nth 0 [:: 2] 0 < 4]].
Proof.
exact: (@find_factor_on_base 4 [:: 2] [::] isT isT isT
          (@span_mul [:: 2] 2 2 isT (@span_mul [:: 2] 2 1 isT (span_one _)))).
Defined.

(** C2, as stated, fails at a = 4 = 2^2 over the base P = [2]:
    find_factor(4, 4, [2]) appends (4, 2, 2) and returns false.  Nor does
    every emitted triple name a factor: over P = [2, 3] the value a = 2
    makes find_factor append (2, 3, 0). *)
Lemma find_factor_power_counterexample :
  [/\ coprime_base [:: 2], span [:: 2] 4,
      returns (fun f => array_find_factor f [::] 4 [:: 2])
              ([:: 4; 2; 2], false),
      ~ (exists out,
           returns (fun f => array_find_factor f [::] 4 [:: 2]) (out, true))
    & returns (fun f => array_find_factor f [::] 2 [:: 2; 3])
              ([:: 2; 3; 0], false)].
Proof.
have ret : returns (fun f => array_find_factor f [::] 4 [:: 2])
                   ([:: 4; 2; 2], false).
  by apply: (returns_at (f := 5)); [apply: array_find_factor_mono | vm_compute].
split=> //.
- exact: (@span_mul [:: 2] 2 2 isT (@span_mul [:: 2] 2 1 isT (span_one _))).
- by case=> out /(returns_inj ret).
- by apply: (returns_at (f := 5)); [apply: array_find_factor_mono | vm_compute].
Qed.

(** C3 (the code departs from it).  With an empty base P, cbextend does not
    return after step 1: for b >= 2 the value b is appended by step 1 and
    once more as ppo(b, 1) by step 4, so the output array gains two
    elements. *)
Theorem cbextend_empty_appends_twice ret b : 1 < b ->
  returns (fun f => cbextend f ret [::] b) (ret ++ [:: b; b]).
Proof.
move=> b_gt1; have := cbextend_empty ret (ltnW b_gt1).
by rw neq_ltn b_gt1 orbT.
Qed.

Lemma cbextend_empty_appends_twice_witness :
  returns (fun f => cbextend f [::] [::] 5) ([::] ++ [:: 5; 5]).
Proof. exact: (@cbextend_empty_appends_twice [::] 5 isT). Defined.

(** C4. In the base case of find_factor (the single base element P[from]),
    if reduce(P[from], a) yields the residue c = 1 and a0 <> P[from], then
    find_factor appends the triple (a0, P[from], a0 / P[from]) to the output
    array and returns false. *)
Theorem find_factor_base_emits out a0 a P from m :
  from < size P ->
  returns (fun f => reduce f (nth 0 P from) a) (m, 1) ->
  a0 != nth 0 P from ->
  returns (fun f => find_factor f out a0 a P from from)
          (out ++ [:: a0; nth 0 P from; a0 %/ nth 0 P from], false).
Proof.
move=> lt_from red neq.
by have := find_factor_leaf out a0 lt_from red; rw /= neq.
Qed.

Lemma find_factor_base_emits_witness :
  returns (fun f => find_factor f [::] 12 4 [:: 2] 0 0)
          ([::] ++ [:: 12; nth 0 [:: 2] 0; 12 %/ nth 0 [:: 2] 0], false).
Proof.
exact: (@find_factor_base_emits [::] 12 4 [:: 2] 0 2 isT
          (returns_at (f := 3) (@reduce_mono 2 4) (erefl _)) isT).
Defined.

(** C5, as amended.  For every positive a and every nonempty list P of
    pairwise coprime positive integers, split(a, P) appends exactly |P|
    values S, slot i of S being ppi(a, P[i]), such that the product of S is
    ppi(a, prod P) and each S[i] is built from the primes of P[i] alone: it
    divides a power of P[i]. *)
Theorem split_on_coprime_base a P ret :
  0 < a -> P != [::] -> positive P -> pairwise coprime P ->
  exists2 S, returns (fun f => array_split f ret a P) (ret ++ S)
    & [/\ size S = size P,
          exists2 v, returns (fun f => ppi f a (\prod_(x <- P) x)) v
                   & \prod_(x <- S) x = v
        & forall i, i < size P ->
            returns (fun f => ppi f a (nth 0 P i)) (nth 0 S i)
            /\ exists k, nth 0 S i %| nth 0 P i ^ k].
Proof.
move=> a_gt0 Pn0 P_pos P_co.
exists [seq a`_\pi(p) | p <- P]; first exact: array_split_spec.
split; first by rw size_map.
  exists a`_\pi(\prod_(x <- P) x).
    by apply: ppi_spec => //; apply: prodn_seq_gt0.
  by rw big_map partn_pi_prod.
move=> i lt_i; have p_gt0 : 0 < nth 0 P i by apply: (allP P_pos); apply: mem_nth.
rw (nth_map 0) //; split; first exact: ppi_spec.
exists a; apply: dvdn_log; rw ?part_gt0 ?expn_gt0 ?p_gt0 // => q q_pr.
rw logn_partn lognX; case: ifP => // q_pi.
apply: leq_trans (ltnW (ltn_logl q a_gt0)) _.
by rw leq_pmulr // logn_gt0.
Qed.

Lemma split_on_coprime_base_witness :
  exists2 S, returns (fun f => array_split f [::] 12 [:: 2; 3]) ([::] ++ S)
    & [/\ size S = size [:: 2; 3],
          exists2 v, returns (fun f => ppi f 12 (\prod_(x <- [:: 2; 3]) x)) v
                   & \prod_(x <- S) x = v
        & forall i, i < size [:: 2; 3] ->
            returns (fun f => ppi f 12 (nth 0 [:: 2; 3] i)) (nth 0 S i)
            /\ exists k, nth 0 S i %| nth 0 [:: 2; 3] i ^ k].
Proof. exact: (@split_on_coprime_base 12 [:: 2; 3] [::] isT isT isT isT). Defined.

(** C5, as stated, fails when the elements of P share a prime: for a = 2
    and P = [2, 2] split appends S = [2, 2], whose product is 4, while
    ppi(2, 2 * 2) = 2. *)
Lemma split_shared_prime_counterexample :
  [/\ returns (fun f => array_split f [::] 2 [:: 2; 2]) [:: 2; 2],
      returns (fun f => ppi f 2 (2 * 2)) 2
    & 2 * 2 != 2].
Proof.
split=> //.
  by apply: (returns_at (f := 5)); [apply: array_split_mono | vm_compute].
by apply: (returns_at (f := 5)); [apply: ppi_mono | vm_compute].
Qed.

(** C6. For all positive integers a and b, the values computed by
    gcd_ppi_ppo(a, b) satisfy ppi * ppo = a and gcd(ppi, ppo) = 1, and the
    gcd output equals gcd(a, b). *)
Theorem gcd_ppi_ppo_correct a b : 0 < a -> 0 < b ->
  exists g i o,
    [/\ returns (fun f => gcd_ppi_ppo f a b) (g, i, o),
        i * o = a, gcdn i o = 1 & g = gcdn a b].
Proof.
move=> a_gt0 b_gt0; exists (gcdn a b), a`_\pi(b), a`_\pi(b)^'.
split=> //; first exact: gcd_ppi_ppo_spec.
  exact: partnC.
by apply/eqP; apply: coprime_partC.
Qed.

Lemma gcd_ppi_ppo_correct_witness :
  exists g i o,
    [/\ returns (fun f => gcd_ppi_ppo f 12 10) (g, i, o),
        i * o = 12, gcdn i o = 1 & g = gcdn 12 10].
Proof. exact: (@gcd_ppi_ppo_correct 12 10 isT isT). Defined.

(** C7. For every p >= 2 and every positive a, reduce(p, a) returns a pair
    (i, c) with p^i * c = a and p not dividing c; in particular
    reduce(3, 108) = (3, 4). *)
Theorem reduce_correct :
  (forall p a, 1 < p -> 0 < a ->
     exists i c,
       [/\ returns (fun f => reduce f p a) (i, c), p ^ i * c = a
         & ~~ (p %| c)])
  /\ returns (fun f => reduce f 3 108) (3, 4).
Proof.
split; first by move=> p a; apply: reduce_spec.
by apply: (returns_at (f := 10)); [apply: reduce_mono | vm_compute].
Qed.

Lemma reduce_correct_witness :
  exists i c,
    [/\ returns (fun f => reduce f 3 108) (i, c), 3 ^ i * c = 108
      & ~~ (3 %| c)].
Proof. exact: (proj1 reduce_correct 3 108 isT isT). Defined.

(* C8 is stated at the end of the file: it rests on the lemmas on cbmerge,
   cb and find_factors that are proved below. *)

(** C9, as amended.  In cbmerge the number of rounds b is the smallest
    integer b >= 1 with 2^b >= n, where n = |Q|; in the edge case n = 0 it
    is b = 1 (not 0): the single round extends the base twice by the empty
    product 1, so that for a base P of integers >= 2 the output equals P. *)
Theorem cbmerge_rounds :
  [/\ forall n, exists b,
        [/\ returns (fun f => cbmerge_b f n 0) b, 0 < b, n <= 2 ^ b
          & forall j, 0 < j -> j < b -> 2 ^ j < n],
      returns (fun f => cbmerge_b f 0 0) 1
    & forall P, all (leq 2) P ->
        returns (fun f => cbmerge f [::] P [::]) P].
Proof.
split; last exact: cbmerge_nil.
  by move=> n; have [b [? ? ? ?]] := cbmerge_b_spec n; exists b.
by apply: (returns_at (f := 1)); [apply: cbmerge_b_mono | vm_compute].
Qed.

Lemma cbmerge_rounds_witness :
  returns (fun f => cbmerge f [::] [:: 2; 3] [::]) [:: 2; 3].
Proof.
exact: (let: And3 _ _ H := cbmerge_rounds in H [:: 2; 3] isT).
Defined.

(** C9, as stated, fails in the edge case n = 0: the do-while loop runs
    once, so b = 1 and never 0. *)
Lemma cbmerge_rounds_empty_counterexample :
  returns (fun f => cbmerge_b f 0 0) 1
  /\ ~ returns (fun f => cbmerge_b f 0 0) 0.
Proof.
have ret : returns (fun f => cbmerge_b f 0 0) 1.
  by apply: (returns_at (f := 1)); [apply: cbmerge_b_mono | vm_compute].
by split=> // /(returns_inj ret).
Qed.

(** C10. For every p >= 2 and every positive a the recursion of
    reduce(p, a) terminates, each recursive call replacing a by a / p < a;
    the hypothesis p >= 2 is needed: for p = 1 the recursion never reaches
    the non-dividing base case. *)
Theorem reduce_terminates :
  (forall p a, 1 < p -> 0 < a ->
     (exists v, returns (fun f => reduce f p a) v) /\ a %/ p < a)
  /\ (forall a, diverges (fun f => reduce f 1 a)).
Proof.
split=> [p a p_gt1 a_gt0|]; last exact: reduce_one_diverges.
split; last by rw ltn_Pdiv.
by have [i [c [red _ _]]] := reduce_spec p_gt1 a_gt0; exists (i, c).
Qed.

Lemma reduce_terminates_witness :
  (exists v, returns (fun f => reduce f 2 8) v) /\ 8 %/ 2 < 8.
Proof. exact: (proj1 reduce_terminates 2 8 isT isT). Defined.

(* ===================================================================== *)
(* Further properties of the code                                         *)
(* ===================================================================== *)

(* --------------------------------------------------------------------- *)
(* The leaves: two_power, the two decompositions, reduce                  *)
(* --------------------------------------------------------------------- *)

(** X1. two_power(x, n) replaces x by x^(2^n): n squarings, none for
    n = 0. *)
Theorem two_power_correct x n : two_power x n = x ^ (2 ^ n).
Proof. exact: two_powerE. Qed.

(** X2. For positive a and b, the ppi computed by gcd_ppi_ppo(a, b) is the
    largest divisor of a built from primes of b: it divides a, each of its
    primes divides b, every divisor of a whose primes all divide b divides
    it, and the ppo is coprime to b. *)
Theorem gcd_ppi_ppo_largest a b : 0 < a -> 0 < b ->
  exists g i o,
    [/\ returns (fun f => gcd_ppi_ppo f a b) (g, i, o),
        i %| a /\ (forall p, prime p -> p %| i -> p %| b),
        forall d, d %| a -> (forall p, prime p -> p %| d -> p %| b) ->
                  d %| i
      & coprime o b].
Proof.
move=> a_gt0 b_gt0; exists (gcdn a b), a`_\pi(b), a`_\pi(b)^'.
split; first exact: gcd_ppi_ppo_spec.
- split=> [|p p_pr pi]; first exact: dvdn_part.
  have : p \in \pi(a`_\pi(b)) by rw inE /= mem_primes p_pr part_gt0.
  by move/(pnatPpi (part_pnat _ _)); rw inE /= mem_primes => /and3P[].
- move=> d da Hd; have d_gt0 : 0 < d by apply: dvdn_gt0 da.
  have d_pi : \pi(b).-nat d.
    apply/pnatP => // p p_pr /(Hd p p_pr) pb.
    by rw inE /= mem_primes p_pr b_gt0.
  by rw -(part_pnat_id d_pi) partn_dvd.
- by rw coprime_sym (@pnat_coprime \pi(b)) ?pnat_pi ?part_pnat.
Qed.

Lemma gcd_ppi_ppo_largest_witness :
  exists g i o,
    [/\ returns (fun f => gcd_ppi_ppo f 60 6) (g, i, o),
        i %| 60 /\ (forall p, prime p -> p %| i -> p %| 6),
        forall d, d %| 60 -> (forall p, prime p -> p %| d -> p %| 6) ->
                  d %| i
      & coprime o 6].
Proof. exact: (@gcd_ppi_ppo_largest 60 6 isT isT). Defined.

(** X3. For positive a and b, gcd_ppg_pple(a, b) returns (g, ppg, pple) with
    g = gcd(a, b), ppg * pple = a, ppg and pple coprime and pple dividing g;
    every prime of ppg has a strictly greater power in a than in b, and
    every prime of pple a power in a at most that in b. *)
Theorem gcd_ppg_pple_correct a b : 0 < a -> 0 < b ->
  exists g h c,
    [/\ returns (fun f => gcd_ppg_pple f a b) (g, h, c),
        g = gcdn a b /\ h * c = a,
        coprime h c /\ c %| g
      & forall p, prime p ->
          (p %| h -> logn p b < logn p a)
          /\ (p %| c -> logn p a <= logn p b)].
Proof.
move=> a_gt0 b_gt0; exists (gcdn a b), (ppg_of a b), (pple_of a b).
split; first exact: gcd_ppg_pple_spec.
- by split=> //; apply: ppgM.
- by split; [apply: coprime_ppg_pple | apply: pple_dvd_gcd].
- move=> p p_pr; split=> [/(ppg_prime p_pr)[]|/(pple_prime p_pr)[]] //.
Qed.

Lemma gcd_ppg_pple_correct_witness :
  exists g h c,
    [/\ returns (fun f => gcd_ppg_pple f 72 12) (g, h, c),
        g = gcdn 72 12 /\ h * c = 72,
        coprime h c /\ c %| g
      & forall p, prime p ->
          (p %| h -> logn p 12 < logn p 72)
          /\ (p %| c -> logn p 72 <= logn p 12)].
Proof. exact: (@gcd_ppg_pple_correct 72 12 isT isT). Defined.

Lemma gcd_ppi_ppo_loop_zero f u : 1 < u ->
  gcd_ppi_ppo_loop f u 0 = OutOfFuel.
Proof.
elim: f u => [|f IH] u u_gt1 //=.
rw gcdn0 (gtn_eqF u_gt1) fdiv_qE ?(ltnW u_gt1) //= div0n.
by apply: IH; rw -(muln1 1); apply: ltn_mul.
Qed.

(** X4. Zero operands of gcd_ppi_ppo: with a = b = 0 the first division is
    a division by zero; with a = 0 and b >= 2 the loop never ends (ppo
    stays 0 and the gcd never becomes 1); with b = 0 and a > 0 the call
    returns (a, a, 1). *)
Theorem gcd_ppi_ppo_zero :
  [/\ forall f, gcd_ppi_ppo f 0 0 = Fault,
      forall b, 1 < b -> diverges (fun f => gcd_ppi_ppo f 0 b)
    & forall a, 0 < a -> returns (fun f => gcd_ppi_ppo f a 0) (a, a, 1)].
Proof.
split=> [f|b b_gt1 f|a a_gt0] //.
  rw /gcd_ppi_ppo gcd0n fdiv_qE ?(ltnW b_gt1) //= div0n.
  by rw gcd_ppi_ppo_loop_zero.
exists 1 => -[|f] // _.
by rw /gcd_ppi_ppo gcdn0 fdiv_qE //= divnn a_gt0 /= gcdn1.
Qed.

Lemma gcd_ppi_ppo_zero_witness :
  diverges (fun f => gcd_ppi_ppo f 0 2)
  /\ returns (fun f => gcd_ppi_ppo f 5 0) (5, 5, 1).
Proof.
exact: (let: And3 _ H1 H2 := gcd_ppi_ppo_zero in conj (H1 2 isT) (H2 5 isT)).
Defined.

Lemma reduce_zero_diverges f p : 0 < p -> reduce f p 0 = OutOfFuel.
Proof.
elim: f p => [|f IH] p p_gt0 //=.
rw fdiv_rE //= mod0n /= fdiv_qE //= div0n IH //.
by rw muln_gt0 p_gt0.
Qed.

(** X5. For p >= 2 and positive a, the exponent i returned by reduce(p, a)
    is the largest e with p^e dividing a, and the residue is a / p^i.  On
    the zero operands reduce gives no result: reduce(0, a) divides by zero,
    and reduce(p, 0) recurses for ever. *)
Theorem reduce_largest_exponent :
  [/\ forall p a, 1 < p -> 0 < a ->
        exists i c,
          [/\ returns (fun f => reduce f p a) (i, c), p ^ i %| a,
              forall e, p ^ e %| a -> e <= i
            & c = a %/ p ^ i],
      forall a f, reduce f.+1 0 a = Fault
    & forall p, 0 < p -> diverges (fun f => reduce f p 0)].
Proof.
split=> [p a p_gt1 a_gt0|a f|p p_gt0 f] //; last exact: reduce_zero_diverges.
have p_gt0 := ltnW p_gt1.
have [i [c [red Ea npc]]] := reduce_spec p_gt1 a_gt0.
exists i, c; split=> //; first by rw -Ea dvdn_mulr.
  move=> e pea; rw leqNgt; apply/negP => lt_ie.
  have : p ^ i.+1 %| a by apply: dvdn_trans pea; apply: dvdn_exp2l.
  by rw -Ea expnSr dvdn_pmul2l ?expn_gt0 ?p_gt0 // (negbTE npc).
by rw -Ea mulKn // expn_gt0 p_gt0.
Qed.

Lemma reduce_largest_exponent_witness :
  (exists i c,
     [/\ returns (fun f => reduce f 2 24) (i, c), 2 ^ i %| 24,
         forall e, 2 ^ e %| 24 -> e <= i
       & c = 24 %/ 2 ^ i])
  /\ diverges (fun f => reduce f 3 0).
Proof.
exact: (let: And3 H1 _ H3 := reduce_largest_exponent in
        conj (H1 2 24 isT isT) (H3 3 isT)).
Defined.

(* --------------------------------------------------------------------- *)
(* prod and split                                                         *)
(* --------------------------------------------------------------------- *)

(** X6. prod over the slots from .. to of an array returns their product,
    and array_prod returns the product of the whole array, which is 1 for
    an empty array (at any fuel: no call is made) and does not depend on
    the order of the slots. *)
Theorem prod_correct :
  [/\ forall p from to, from <= to -> to < size p ->
        returns (fun f => prod f p from to) (\prod_(x <- slice from to p) x),
      forall p, returns (fun f => array_prod f p) (\prod_(x <- p) x),
      forall f, array_prod f [::] = Ret 1
    & forall p q, perm_eq p q ->
        exists2 v, returns (fun f => array_prod f p) v
                 & returns (fun f => array_prod f q) v
                   /\ v = \prod_(x <- p) x].
Proof.
split=> // [p from to|p|p q pq]; first exact: prod_spec.
  exact: array_prod_spec.
exists (\prod_(x <- p) x); first exact: array_prod_spec.
by split=> //; rw (perm_big _ pq) /=; apply: array_prod_spec.
Qed.

Lemma prod_correct_witness :
  returns (fun f => prod f [:: 2; 3; 5; 7] 1 2)
          (\prod_(x <- slice 1 2 [:: 2; 3; 5; 7]) x)
  /\ exists2 v, returns (fun f => array_prod f [:: 2; 3; 5]) v
              & returns (fun f => array_prod f [:: 5; 2; 3]) v
                /\ v = \prod_(x <- [:: 2; 3; 5]) x.
Proof.
exact: (let: And4 H1 _ _ H3 := prod_correct in
        conj (H1 [:: 2; 3; 5; 7] 1 2 isT isT)
             (H3 [:: 2; 3; 5] [:: 5; 2; 3] isT)).
Defined.

(** X7. For positive a and any array P of positive integers (coprime or
    not), split over the slots from .. to of P keeps what the output array
    held and appends one value per slot, in the order of the slots: the
    value for slot i is ppi(a, P[i]), a divisor of a. *)
Theorem split_positional a P ret from to :
  0 < a -> positive P -> from <= to -> to < size P ->
  exists2 S, returns (fun f => split f ret a P from to) (ret ++ S)
    & size S = (to - from).+1 /\
      forall i, i <= to - from ->
        returns (fun f => ppi f a (nth 0 P (from + i))) (nth 0 S i)
        /\ nth 0 S i %| a.
Proof.
move=> a_gt0 P_pos le_ft lt_t.
exists [seq a`_\pi(x) | x <- slice from to P]; first exact: split_spec.
have Esz : size (slice from to P) = (to - from).+1.
  rw /slice size_takel ?subSn // size_drop.
  by nat_lia.
rw size_map Esz; split=> // i le_i.
have lt_i : i < size (slice from to P) by rw Esz ltnS.
rw (nth_map 0) // /slice nth_take ?subSn // nth_drop.
have p_gt0 : 0 < nth 0 P (from + i).
  apply: (allP P_pos); apply: mem_nth.
  by rw /=; clear Esz lt_i; nat_lia.
by split; [apply: ppi_spec | apply: dvdn_part].
Qed.

Lemma split_positional_witness :
  exists2 S,
    returns (fun f => split f [:: 9] 12 [:: 4; 6; 5] 0 2) ([:: 9] ++ S)
    & size S = (2 - 0).+1 /\
      forall i, i <= 2 - 0 ->
        returns (fun f => ppi f 12 (nth 0 [:: 4; 6; 5] (0 + i))) (nth 0 S i)
        /\ nth 0 S i %| 12.
Proof. exact: (@split_positional 12 [:: 4; 6; 5] [:: 9] 0 2 isT isT isT isT). Defined.

(* --------------------------------------------------------------------- *)
(* append_cb                                                              *)
(* --------------------------------------------------------------------- *)

Lemma pnat_dvd_exp m x : 0 < m -> \pi(m).-nat x -> x %| m ^ x.
Proof.
move=> m_gt0 x_pi; have x_gt0 : 0 < x by case/andP: x_pi.
apply: dvdn_log; rw ?expn_gt0 ?m_gt0 // => p p_pr; rw lognX.
have [px|] := boolP (p \in \pi(x)); last first.
  by rw inE /= -logn_gt0 -leqNgt leqn0 => /eqP->.
apply: leq_trans (ltnW (ltn_logl p x_gt0)) _.
by rw leq_pmulr // logn_gt0; apply: (pnatPpi x_pi).
Qed.

(* The loop entered with h = 1 makes one turn and appends nothing. *)
Lemma append_cb_loop_trivial out b g x : 0 < g ->
  exists F, forall fr fl, 0 < fr -> F <= fl ->
    append_cb_loop (append_cb fr) fl out b g 1 x 1 = Ret (out, x).
Proof.
move=> g_gt0; have gg_gt0 : 0 < g * g by rw muln_gt0 g_gt0.
have [F HF] := gcd_ppg_pple_spec (isT : 0 < 1) gg_gt0.
exists F.+1 => -[|fr] // [|fl] // _; rw ltnS => /HF E.
rw /= E /= /ppg_of /pple_of !partn1 /= gcd1n /= /mpz_fdiv_q /=.
by rw muln1.
Qed.

Lemma append_cb_base f out a : 0 < f ->
  append_cb f out a 1 = Ret (out ++ if a != 1 then [:: a] else [::]).
Proof.
by case: f => //= f _; case: ifP => _; rw ?cats0 // /array_add cats1.
Qed.

Lemma append_cb_coprime_run a b out : 0 < a -> 0 < b -> coprime a b ->
  returns (fun f => append_cb f out a b)
          (out ++ (if a != 1 then [:: a] else [::])
               ++ (if b != 1 then [:: b] else [::])).
Proof.
move=> a_gt0 b_gt0 co_ab.
have [/eqP b1|bn1] := boolP (b == 1).
  by exists 1 => f f_gt0; rw b1 append_cb_base //= cats0.
have a_pi' : \pi(b)^'.-nat a by rw -coprime_pi' // coprime_sym.
have [Fi Hi] := ppi_ppo_spec a_gt0 b_gt0.
have [Fg Hg] := gcd_ppg_pple_spec (isT : 0 < 1) b_gt0.
pose out1 := out ++ (if a != 1 then [:: a] else [::]).
have [Fl Hl] := @append_cb_loop_trivial out1 b 1 1 isT.
exists (maxn (maxn Fi Fg) (maxn Fl 1)).+1 => -[|f] //.
rw !ltnS !geq_max => /andP[/andP[/Hi + /Hg +] /andP[le_l f_gt0]].
rw (part_p'nat a_pi') (part_pnat_id a_pi') /ppg_of /pple_of !partn1 gcd1n.
move=> Ei Eg; rw /= (negbTE bn1) Ei /= Eg /=.
have -> : (if a != 1 then array_add out a else out) = out1.
  by rw /out1 /array_add; case: ifP => _; rw ?cats0 ?cats1.
by rw Hl //= /mpz_fdiv_q /= divn1 append_cb_base // bn1 /out1 catA.
Qed.

Lemma partn_gt_self a : 0 < a ->
  ppg_of a a = 1 /\ pple_of a a = a.
Proof.
move=> a_gt0; split.
  by rw /ppg_of /partn big_pred0 // => p; rw !inE ltnn.
rw /pple_of -[RHS](partnT a_gt0); apply: eq_partn => p.
by rw !inE ltnn.
Qed.

Lemma append_cb_same_run a out : 1 < a ->
  returns (fun f => append_cb f out a a) (out ++ [:: a]).
Proof.
move=> a_gt1; have a_gt0 := ltnW a_gt1.
have an1 : a != 1 by rw neq_ltn a_gt1 orbT.
have [Eppg Epple] := partn_gt_self a_gt0.
have [Fi Hi] := ppi_ppo_spec a_gt0 a_gt0.
have [Fg Hg] := gcd_ppg_pple_spec a_gt0 a_gt0.
have [Fl Hl] := @append_cb_loop_trivial out a a a a_gt0.
have [Fc Hc] := @append_cb_coprime_run 1 a out isT a_gt0 (coprime1n a).
exists (maxn (maxn Fi Fg) (maxn Fl (maxn Fc 1))).+1 => -[|f] //.
rw !ltnS !geq_max.
case/andP=> /andP[/Hi Ei /Hg Eg] /and3P[le_l /Hc Ec f_gt0].
move: Ei Eg Ec; rw partn_pi // (@part_p'nat _ a) ?pnatNK ?pnat_pi //.
rw Eppg Epple gcdnn an1 /= => Ei Eg Ec.
by rw /= (negbTE an1) Ei /= Eg /= Hl //= fdiv_qE //= divnn a_gt0 Ec.
Qed.

(** X8. For positive a and b, append_cb(out, a, b) keeps what out held and
    appends a coprime base of {a, b}: the appended values are >= 2 and
    pairwise coprime, a and b are products of powers of them, and each of
    them divides a power of a * b. *)
Theorem append_cb_correct a b out : 0 < a -> 0 < b ->
  exists2 L, returns (fun f => append_cb f out a b) (out ++ L)
    & [/\ all (leq 2) L, pairwise coprime L,
          (exists2 es, size es = size L
                     & a = \prod_(be <- zip L es) be.1 ^ be.2)
          /\ (exists2 es, size es = size L
                        & b = \prod_(be <- zip L es) be.1 ^ be.2)
        & forall x, x \in L -> exists k, x %| (a * b) ^ k].
Proof.
move=> a_gt0 b_gt0.
have [L [/andP[L_ge2 L_co] sa sb piL] ret] := append_cb_spec a_gt0 b_gt0.
exists L => //; split=> //; first by split; apply: span_exponents.
move=> x xL; exists x; apply: pnat_dvd_exp; first by rw muln_gt0 a_gt0.
exact: (allP piL).
Qed.

Lemma append_cb_correct_witness :
  exists2 L, returns (fun f => append_cb f [:: 7] 12 18) ([:: 7] ++ L)
    & [/\ all (leq 2) L, pairwise coprime L,
          (exists2 es, size es = size L
                     & 12 = \prod_(be <- zip L es) be.1 ^ be.2)
          /\ (exists2 es, size es = size L
                        & 18 = \prod_(be <- zip L es) be.1 ^ be.2)
        & forall x, x \in L -> exists k, x %| (12 * 18) ^ k].
Proof. exact: (@append_cb_correct 12 18 [:: 7] isT isT). Defined.

(** X9. When a and b are positive and coprime, append_cb appends a and then
    b, leaving out whichever is 1; in particular append_cb(1, b) appends
    just b and append_cb(a, 1) just a. *)
Theorem append_cb_coprime a b out : 0 < a -> 0 < b -> coprime a b ->
  returns (fun f => append_cb f out a b)
          (out ++ (if a != 1 then [:: a] else [::])
               ++ (if b != 1 then [:: b] else [::])).
Proof. exact: append_cb_coprime_run. Qed.

Lemma append_cb_coprime_witness :
  returns (fun f => append_cb f [::] 1 6)
          ([::] ++ (if 1 != 1 then [:: 1] else [::])
                ++ (if 6 != 1 then [:: 6] else [::])).
Proof. exact: (@append_cb_coprime 1 6 [::] isT isT isT). Defined.

(** X10. For a >= 2, append_cb(a, a) appends a once. *)
Theorem append_cb_same a out : 1 < a ->
  returns (fun f => append_cb f out a a) (out ++ [:: a]).
Proof. exact: append_cb_same_run. Qed.

Lemma append_cb_same_witness :
  returns (fun f => append_cb f [::] 12 12) ([::] ++ [:: 12]).
Proof. exact: (@append_cb_same 12 [::] isT). Defined.

(* --------------------------------------------------------------------- *)
(* cbextend                                                               *)
(* --------------------------------------------------------------------- *)

Lemma cat_inj (ret L L' : seq nat) : ret ++ L = ret ++ L' -> L = L'.
Proof. by move/(congr1 (drop (size ret))); rw !drop_size_cat. Qed.

Lemma pnat_trans (pi : nat_pred) m x : pi.-nat m -> \pi(m).-nat x -> pi.-nat x.
Proof. by move=> m_pi; apply: sub_in_pnat => p _; apply: (pnatPpi m_pi). Qed.

Lemma coprime_base_mem P p q :
  coprime_base P -> p \in P -> q \in P -> p != q -> coprime p q.
Proof.
case/andP=> _; elim: P => //= x P IH /andP[/allP co_x /IH{}IH].
rw !inE => /orP[/eqP->|pP] /orP[/eqP->|qP] //; rw ?eqxx //.
- by move=> _; apply: co_x.
- by move=> _; rw coprime_sym; apply: co_x.
- exact: IH.
Qed.

(* The primes of what cbextend appends. *)
Lemma cbextend_support P b ret L : coprime_base P -> P != [::] -> 0 < b ->
  returns (fun f => cbextend f ret P b) (ret ++ L) ->
  all (pnat \pi(b * \prod_(p <- P) p)) L.
Proof.
move=> cbP Pn0 b_gt0 retL.
have P_pos := coprime_base_positive cbP; have [_ co_P] := andP cbP.
have x_gt0 := prodn_seq_gt0 P_pos.
have [Ls cbs rets] := cbextend_run P_pos b_gt0.
have [] := @cb_pairs_base (fun p => b`_\pi(p)) Ls P P_pos co_P _ cbs.
  by move=> p _; apply: part_pnat.
move=> _ piLs _ _.
have -> : L = cbextend_list P b Ls by apply/cat_inj/(returns_inj retL).
have bx_gt0 : 0 < b * \prod_(p <- P) p by rw muln_gt0 b_gt0.
have -> : cbextend_list P b Ls
          = (if b`_\pi(\prod_(x <- P) x)^' != 1
             then [:: b`_\pi(\prod_(x <- P) x)^'] else [::]) ++ flatten Ls.
  by rw /cbextend_list; case: (P) Pn0.
rw all_cat (all_pnat_pi_dvd _ bx_gt0 piLs) ?dvdn_mull // andbT.
case: ifP => //= _; rw andbT.
apply: pnat_pi_dvd (dvdn_mulr _ (dvdnn b)) bx_gt0 _.
apply: pnat_dvd (dvdn_part _ _) _.
exact: pnat_pi.
Qed.

(* The for loop of cbextend when every call of append_cb is known. *)
Lemma cbextend_zip_exact (g : nat -> nat) (h : nat -> seq nat) P :
  (forall p, p \in P ->
     forall out, returns (fun f => append_cb f out p (g p)) (out ++ h p)) ->
  forall ret,
    returns (fun f => cbextend_zip f ret [seq (p, g p) | p <- P])
            (ret ++ flatten [seq h p | p <- P]).
Proof.
elim: P => [_ ret|p P IH H ret] /=; first by exists 0 => f _; rw cats0.
have [F1 H1] := H p (mem_head _ _) ret.
have [|F2 H2] := IH _ (ret ++ h p).
  by move=> q qP; apply: H; rw inE qP orbT.
exists (maxn F1 F2) => f; rw geq_max => /andP[/H1 E1 /H2 E2].
by rw E1 /= E2 catA.
Qed.

Lemma flatten_seq1 (P : seq nat) : flatten [seq [:: p] | p <- P] = P.
Proof. by elim: P => //= p P ->. Qed.

(* cbextend when b meets each element of the base as 1 or as the element
   itself. *)
Lemma cbextend_fixed P b ret : coprime_base P -> P != [::] -> 0 < b ->
  (forall p, p \in P -> b`_\pi(p) = 1 \/ b`_\pi(p) = p) ->
  returns (fun f => cbextend f ret P b)
          (ret ++ (if b`_\pi(\prod_(x <- P) x)^' != 1
                   then [:: b`_\pi(\prod_(x <- P) x)^'] else [::]) ++ P).
Proof.
move=> cbP Pn0 b_gt0 Hb.
have P_pos := coprime_base_positive cbP.
have /andP[/allP P_ge2 _] := cbP.
have [F HF] := cbextend_unfold P_pos b_gt0.
have [|Fz Hz] := @cbextend_zip_exact (fun p => b`_\pi(p)) (fun p => [:: p]) P
    _ (ret ++ cbextend_list P b [::]).
  move=> p pP out; have p_gt1 := P_ge2 p pP.
  have pn1 : p != 1 by rw neq_ltn p_gt1 orbT.
  case: (Hb p pP) => ->; last exact: append_cb_same_run.
  have := @append_cb_coprime_run p 1 out (ltnW p_gt1) isT (coprimen1 p).
  by rw pn1.
exists (maxn F Fz) => f; rw geq_max => /andP[/HF-> /Hz->].
rw flatten_seq1 /cbextend_list cats0 -catA.
by case: (P) Pn0.
Qed.

(** X11. For a nonempty list P of pairwise coprime integers >= 2 and a
    positive b, cbextend(ret, P, b) keeps what ret held and appends a
    coprime base of P and b: the appended values are >= 2 and pairwise
    coprime, every element of P and b itself are products of powers of
    them, and each of them divides a power of b * prod P. *)
Theorem cbextend_correct P b ret : coprime_base P -> P != [::] -> 0 < b ->
  exists2 L, returns (fun f => cbextend f ret P b) (ret ++ L)
    & [/\ all (leq 2) L, pairwise coprime L,
          forall s, s \in b :: P ->
            exists2 es, size es = size L
                      & s = \prod_(be <- zip L es) be.1 ^ be.2
        & forall x, x \in L -> exists k, x %| (b * \prod_(p <- P) p) ^ k].
Proof.
move=> cbP Pn0 b_gt0.
have [L [/andP[L_ge2 L_co] _ sP sb] ret_L] := cbextend_spec cbP Pn0 b_gt0.
exists L => //; split=> //.
  move=> s; rw inE => /orP[/eqP->|/sP]; exact: span_exponents.
move=> x xL; exists x; apply: pnat_dvd_exp.
  by rw muln_gt0 b_gt0 prodn_seq_gt0 // coprime_base_positive.
exact: (allP (cbextend_support cbP Pn0 b_gt0 (ret_L ret))).
Qed.

Lemma cbextend_correct_witness :
  exists2 L, returns (fun f => cbextend f [::] [:: 4; 3] 6) ([::] ++ L)
    & [/\ all (leq 2) L, pairwise coprime L,
          forall s, s \in 6 :: [:: 4; 3] ->
            exists2 es, size es = size L
                      & s = \prod_(be <- zip L es) be.1 ^ be.2
        & forall x, x \in L ->
            exists k, x %| (6 * \prod_(p <- [:: 4; 3]) p) ^ k].
Proof. exact: (@cbextend_correct [:: 4; 3] 6 [::] isT isT isT). Defined.

(** X12. Extending a list P of pairwise coprime integers >= 2 by one of its
    own elements appends exactly P, in its order. *)
Theorem cbextend_member P b ret : coprime_base P -> b \in P ->
  returns (fun f => cbextend f ret P b) (ret ++ P).
Proof.
move=> cbP bP; have P_pos := coprime_base_positive cbP.
have Pn0 : P != [::] by case: (P) bP.
have b_gt0 : 0 < b by apply: (allP P_pos).
have x_gt0 := prodn_seq_gt0 P_pos.
have := @cbextend_fixed P b ret cbP Pn0 b_gt0.
have -> : b`_\pi(\prod_(x <- P) x)^' = 1.
  apply: part_p'nat; rw pnatNK.
  by apply: pnat_pi_dvd (dvdn_prod_mem bP) x_gt0 _; apply: pnat_pi.
apply=> p pP; have [->|neq] := eqVneq p b.
  by right; apply: partn_pi.
left; apply: part_p'nat; rw -coprime_pi' ?(allP P_pos) //.
exact: (coprime_base_mem cbP pP bP neq).
Qed.

Lemma cbextend_member_witness :
  returns (fun f => cbextend f [::] [:: 4; 9; 5] 9) ([::] ++ [:: 4; 9; 5]).
Proof. exact: (@cbextend_member [:: 4; 9; 5] 9 [::] isT isT). Defined.

(** X13. Extending a nonempty list P of pairwise coprime integers >= 2 by a
    positive b coprime to every element of P appends b (unless b = 1) and
    then P, in its order. *)
Theorem cbextend_coprime P b ret :
  coprime_base P -> P != [::] -> 0 < b -> all (coprime b) P ->
  returns (fun f => cbextend f ret P b)
          (ret ++ (if b != 1 then [:: b] else [::]) ++ P).
Proof.
move=> cbP Pn0 b_gt0 co_b; have P_pos := coprime_base_positive cbP.
have x_gt0 := prodn_seq_gt0 P_pos.
have := @cbextend_fixed P b ret cbP Pn0 b_gt0.
have -> : b`_\pi(\prod_(x <- P) x)^' = b.
  by apply: part_pnat_id; rw -coprime_pi' // coprime_sym coprime_prodr.
apply=> p pP; left; apply: part_p'nat.
have p_gt0 : 0 < p by apply: (allP P_pos).
by rw -coprime_pi' // coprime_sym; apply: (allP co_b).
Qed.

Lemma cbextend_coprime_witness :
  returns (fun f => cbextend f [::] [:: 4; 9] 35)
          ([::] ++ (if 35 != 1 then [:: 35] else [::]) ++ [:: 4; 9]).
Proof. exact: (@cbextend_coprime [:: 4; 9] 35 [::] isT isT isT isT). Defined.

(* --------------------------------------------------------------------- *)
(* cbmerge                                                                *)
(* --------------------------------------------------------------------- *)

Lemma all_pnat_prod (pi : nat_pred) (s : seq nat) :
  all (pnat pi) s -> pi.-nat (\prod_(x <- s) x).
Proof.
elim: s => [|x s IH] /=; first by rw big_nil.
by case/andP=> x_pi /IH s_pi; rw big_cons pnatM x_pi.
Qed.

Lemma dvdn_prod_sel keep k (q : seq nat) :
  \prod_(x <- sel keep k q) x %| \prod_(x <- q) x.
Proof.
elim: q k => [|x q IH] k //=; case: ifP => _; rw !big_cons.
  exact: dvdn_mul.
exact: dvdn_mull.
Qed.

Lemma perm_select_bit i k q :
  perm_eq (select_bit false i k q ++ select_bit true i k q) q.
Proof.
elim: q k => //= x q IH k; case: (bit i k) => /=.
  by rw perm_catC /= perm_cons perm_catC.
by rw perm_cons.
Qed.

(* Any two distinct indices below 2^b differ at one of the b low bits. *)
Lemma bit_separates b k k' : k < 2 ^ b -> k' < 2 ^ b -> k != k' ->
  exists2 i, i < b & bit i k != bit i k'.
Proof.
move=> lt_k lt_k' neq.
have [/hasP[i]|] := boolP (has (fun i => bit i k != bit i k') (iota 0 b)).
  by rw mem_iota add0n /= => lt_i bi; exists i.
rw -all_predC => /allP ag; case/eqP: neq; apply/esym.
apply: (agree_inj lt_k' lt_k); apply/allP => j /ag /=.
by rw negbK.
Qed.

Section CbMergeSupport.

Variables (P Q : seq nat) (N : nat).
Hypothesis Q_pos : positive Q.
Hypothesis Q_co : pairwise coprime Q.
Hypothesis N_gt0 : 0 < N.
Hypothesis Q_dvd : \prod_(x <- Q) x %| N.

(* One round keeps the primes within those of N. *)
Lemma cbmerge_round_support s i :
  merge_inv P Q s i -> all (pnat \pi(N)) s ->
  exists s', [/\ merge_inv P Q s' i.+1, all (pnat \pi(N)) s'
    & exists F, forall f b, F <= f -> i != b ->
        cbmerge_loop f.+1 s Q b i = cbmerge_loop f s' Q b i.+1].
Proof.
move=> inv s_pi; have [cbs sn0 _ _] := inv.
have [s' [inv' [F HF]]] := cbmerge_round Q_pos Q_co inv.
have [E0 E1 [t Et Es]] := HF F (leqnn F).
have x_gt0 want : 0 < \prod_(x <- select_bit want i 0 Q) x.
  by apply: prodn_seq_gt0; rw select_bitE; apply: all_sel.
have x_pi want : \pi(N).-nat (\prod_(x <- select_bit want i 0 Q) x).
  apply: pnat_dvd (pnat_pi N_gt0); apply: dvdn_trans Q_dvd.
  by rw select_bitE; apply: dvdn_prod_sel.
have step B B' x : coprime_base B -> B != [::] -> 0 < x -> \pi(N).-nat x ->
    all (pnat \pi(N)) B -> cbextend F [::] B x = Ret B' ->
    [/\ coprime_base B', B' != [::] & all (pnat \pi(N)) B'].
  move=> cbB Bn0 x0 xN BN EB.
  have retB : returns (fun f => cbextend f [::] B x) ([::] ++ B').
    exact: returns_at (@cbextend_mono _ _ _) EB.
  have [L [cbL Ln0 _ _] /(_ [::]) retL] := cbextend_spec cbB Bn0 x0.
  have EL : L = B' by apply/(@cat_inj [::])/(returns_inj retL).
  rw -EL; split=> //; rw EL.
  apply: sub_all (cbextend_support cbB Bn0 x0 retB) => y.
  by apply: pnat_trans; rw pnatM xN all_pnat_prod.
have [cbt tn0 t_pi] := step _ _ _ cbs sn0 (x_gt0 false) (x_pi false) s_pi Et.
have [_ _ s'_pi] := step _ _ _ cbt tn0 (x_gt0 true) (x_pi true) t_pi Es.
exists s'; split=> //; exists F => f b /HF[{}E0 {}E1 [t' Et' Es']] /negbTE nb.
by rw /= nb E0 /= Et' /= E1 /= Es'.
Qed.

Lemma cbmerge_loop_support b d i s : i + d = b ->
  merge_inv P Q s i -> all (pnat \pi(N)) s ->
  exists2 s', merge_inv P Q s' b /\ all (pnat \pi(N)) s'
            & returns (fun f => cbmerge_loop f s Q b i) s'.
Proof.
elim: d i s => [|d IH] i s.
  rw addn0 => <- inv s_pi; exists s => //.
  by exists 1 => -[|f] //= _; rw eqxx.
rw addnS -addSn => Eb inv s_pi.
have [s' [inv' s'_pi [F HF]]] := cbmerge_round_support inv s_pi.
have [s'' inv'' [F' HF']] := IH _ _ Eb inv' s'_pi.
exists s'' => //; exists (maxn F F').+1 => -[|f] //.
rw ltnS geq_max => /andP[le_F /HF' E'].
have lt_ib : i < b by rw -Eb addSn ltnS leq_addr.
by rw HF // neq_ltn lt_ib.
Qed.

End CbMergeSupport.

(* cbmerge on an output array that holds s0: the loop starts from s0 ++ P
   and the array is rebuilt in every round. *)
Lemma cbmerge_support s0 P Q :
  coprime_base (s0 ++ P) -> s0 ++ P != [::] ->
  positive Q -> pairwise coprime Q ->
  exists2 L,
    [/\ coprime_base L, forall x, x \in s0 ++ P -> span L x,
        forall x, x \in Q -> span L x
      & all (pnat \pi(\prod_(x <- s0 ++ P) x * \prod_(x <- Q) x)) L]
    & returns (fun f => cbmerge f s0 P Q) L.
Proof.
move=> cbP Pn0 Q_pos Q_co.
have P_gt0 := prodn_seq_gt0 (coprime_base_positive cbP).
have Q_gt0 := prodn_seq_gt0 Q_pos.
set N := _ * _.
have N_gt0 : 0 < N by rw muln_gt0 P_gt0.
have Q_dvd : \prod_(x <- Q) x %| N by apply: dvdn_mull.
have [b [b_gt0 le_b _ [Fb Hb]]] := cbmerge_b_spec (size Q).
have inv0 : merge_inv (s0 ++ P) Q (s0 ++ P) 0.
  by split=> // p; apply: span_mem.
have P_pi : all (pnat \pi(N)) (s0 ++ P).
  apply/allP => x xP; apply: pnat_dvd (pnat_pi N_gt0).
  by apply: dvdn_mulr; apply: dvdn_prod_mem.
have [L [[cbL Ln0 sP sG] L_pi] [F HF]] :=
  cbmerge_loop_support Q_pos Q_co N_gt0 Q_dvd (add0n b) inv0 P_pi.
exists L; last first.
  exists (maxn Fb F) => f; rw geq_max => /andP[/Hb Eb /HF E].
  by rw /cbmerge Eb.
split=> // q /(nthP 0)[k lt_k <-].
have lt_k2 := leq_trans lt_k le_b.
have E : sel (agree b k) 0 Q = sel (pred1 k) 0 Q.
  apply: sel_ext_in => j; rw add0n /= => lt_j.
  apply/idP/eqP => [ag|->]; last by apply/allP => ? _.
  by apply/esym/(agree_inj lt_k2 (leq_trans lt_j le_b)).
by have := sG b_gt0 k; rw E sel_pred1 // big_seq1 subn0.
Qed.

(** X14. cbmerge(s, P, Q), called on an output array whose content s0
    together with P is a nonempty list of pairwise coprime integers >= 2,
    and on a list Q of pairwise coprime positive integers, returns with the
    output array rebuilt (not extended): it then holds a coprime base L of
    s0, P and Q, that is integers >= 2, pairwise coprime, of which every
    element of s0, P and Q is a product of powers, and each of which divides
    a power of prod(s0 ++ P) * prod Q. *)
Theorem cbmerge_correct s0 P Q :
  coprime_base (s0 ++ P) -> s0 ++ P != [::] ->
  positive Q -> pairwise coprime Q ->
  exists2 L, returns (fun f => cbmerge f s0 P Q) L
    & [/\ all (leq 2) L, pairwise coprime L,
          forall s, s \in s0 ++ P ++ Q ->
            exists2 es, size es = size L
                      & s = \prod_(be <- zip L es) be.1 ^ be.2
        & forall x, x \in L ->
            exists k,
              x %| (\prod_(y <- s0 ++ P) y * \prod_(y <- Q) y) ^ k].
Proof.
move=> cbP Pn0 Q_pos Q_co.
have [L [/andP[L_ge2 L_co] sP sQ L_pi] retL] :=
  cbmerge_support cbP Pn0 Q_pos Q_co.
exists L => //; split=> //.
  move=> s; rw catA mem_cat => /orP[/sP|/sQ]; exact: span_exponents.
move=> x xL; exists x; apply: pnat_dvd_exp; last exact: (allP L_pi).
by rw muln_gt0 !prodn_seq_gt0 // coprime_base_positive.
Qed.

Lemma cbmerge_correct_witness :
  exists2 L, returns (fun f => cbmerge f [::] [:: 4; 3] [:: 6; 5; 1]) L
    & [/\ all (leq 2) L, pairwise coprime L,
          forall s, s \in [::] ++ [:: 4; 3] ++ [:: 6; 5; 1] ->
            exists2 es, size es = size L
                      & s = \prod_(be <- zip L es) be.1 ^ be.2
        & forall x, x \in L ->
            exists k,
              x %| (\prod_(y <- [::] ++ [:: 4; 3]) y
                    * \prod_(y <- [:: 6; 5; 1]) y) ^ k].
Proof.
exact: (@cbmerge_correct [::] [:: 4; 3] [:: 6; 5; 1] isT isT isT isT).
Defined.

(** X15. The rounds of cbmerge tell the elements of Q apart: with b the
    round count computed for n = |Q|, any two distinct indices k, k' < n
    differ at some bit i < b, so that round i puts Q[k] and Q[k'] into
    different selections; and in every round the two selections together
    are a rearrangement of Q, so that the two products of the round multiply
    to the product of Q. *)
Theorem cbmerge_rounds_separate (Q : seq nat) :
  exists2 b, returns (fun f => cbmerge_b f (size Q) 0) b
    & (forall k k', k < size Q -> k' < size Q -> k != k' ->
         exists2 i, i < b & bit i k != bit i k')
      /\ (forall i,
            perm_eq (select_bit false i 0 Q ++ select_bit true i 0 Q) Q
            /\ \prod_(x <- select_bit false i 0 Q) x
               * \prod_(x <- select_bit true i 0 Q) x = \prod_(x <- Q) x).
Proof.
have [b [b_gt0 le_b _ retb]] := cbmerge_b_spec (size Q).
exists b => //; split=> [k k' lt_k lt_k'|i].
  by apply: bit_separates; apply: leq_trans le_b.
split; first exact: perm_select_bit.
by rw -big_cat /=; apply: perm_big; apply: perm_select_bit.
Qed.

Lemma cbmerge_rounds_separate_witness :
  exists2 b, returns (fun f => cbmerge_b f (size [:: 7; 8; 9]) 0) b
    & (forall k k', k < size [:: 7; 8; 9] -> k' < size [:: 7; 8; 9] ->
         k != k' -> exists2 i, i < b & bit i k != bit i k')
      /\ (forall i,
            perm_eq (select_bit false i 0 [:: 7; 8; 9]
                     ++ select_bit true i 0 [:: 7; 8; 9]) [:: 7; 8; 9]
            /\ \prod_(x <- select_bit false i 0 [:: 7; 8; 9]) x
               * \prod_(x <- select_bit true i 0 [:: 7; 8; 9]) x
               = \prod_(x <- [:: 7; 8; 9]) x).
Proof. exact: (cbmerge_rounds_separate [:: 7; 8; 9]). Defined.

(* --------------------------------------------------------------------- *)
(* cb on any input                                                        *)
(* --------------------------------------------------------------------- *)

Lemma nonzero_positive s : positive (nonzero s).
Proof. by elim: s => //= -[|x] s IH. Qed.

Lemma pnat_pi1 x : \pi(1).-nat x -> x = 1.
Proof. by move/(pnat_dvd_exp (isT : 0 < 1)); rw exp1n dvdn1 => /eqP. Qed.

(* cb on a range that may hold zeros: they are skipped. *)
Lemma cb_gen S from to : from <= to -> to < size S ->
  exists2 L,
    [/\ coprime_base L,
        forall x, x \in slice from to S -> x != 0 -> span L x
      & all (pnat \pi(\prod_(x <- nonzero (slice from to S)) x)) L]
    & returns (fun f => cb f [::] S from to) L.
Proof.
move=> le_ft; elim/range_ind: le_ft => [i|{}from {}to mid lt_ft Em Em1].
  move=> lt_i; rw slice1 //; set x := nth 0 S i.
  exists (if x == 0 then [::] else if x != 1 then [:: x] else [::]).
    split.
    - by case: (x) => [|[|n]].
    - move=> y; rw inE => /eqP->; case: (x) => [|[|n]] // _.
        exact: span_one.
      by apply: span_mem; rw inE.
    - rw /nonzero /=; case: (x) => [|[|n]] //=.
      by rw big_seq1 andbT pnat_pi.
  exists 1 => -[|f] //= _; rw subnn /= /array_get lt_i /= -/x.
  by case: (x) => [|[|n]].
move=> le_fm lt_mt IH1 IH2 lt_t.
have [P [cbP sP P_pi] [F1 H1]] := IH1 (ltn_trans lt_mt lt_t).
have [Q [cbQ sQ Q_pi] [F2 H2]] := IH2 lt_t.
rw (slice_cat _ le_fm lt_mt) /nonzero filter_cat big_cat /= -!/(nonzero _).
set N1 := \prod_(x <- nonzero (slice from mid S)) x in P_pi *.
set N2 := \prod_(x <- nonzero (slice mid.+1 to S)) x in Q_pi *.
have N1_gt0 : 0 < N1 by apply/prodn_seq_gt0/nonzero_positive.
have N2_gt0 : 0 < N2 by apply/prodn_seq_gt0/nonzero_positive.
have N_gt0 : 0 < N1 * N2 by rw muln_gt0 N1_gt0.
have {}P_pi : all (pnat \pi(N1 * N2)) P.
  by apply: all_pnat_pi_dvd P_pi => //; apply: dvdn_mulr.
have {}Q_pi : all (pnat \pi(N1 * N2)) Q.
  by apply: all_pnat_pi_dvd Q_pi => //; apply: dvdn_mull.
have run L : (forall f, maxn F1 F2 <= f ->
    (if (size Q != 0) && (size P != 0) then cbmerge f [::] P Q
     else if (size Q == 0) && (size P != 0) then Ret (array_add_array [::] P)
     else if (size Q != 0) && (size P == 0) then Ret (array_add_array [::] Q)
     else Ret [::]) = Ret L) ->
    returns (fun f => cb f [::] S from to) L.
  move=> HL; exists (maxn F1 F2).+1 => -[|f] //; rw ltnS => le_f.
  move: (le_f); rw geq_max => /andP[/H1 E1 /H2 E2].
  by rw /= subn_eq0 leqNgt lt_ft /= Em Em1 E1 /= E2 /= HL.
have mem_split x : x \in slice from mid S ++ slice mid.+1 to S ->
    (x \in slice from mid S) || (x \in slice mid.+1 to S).
  by rw mem_cat.
case: (altP (P =P [::])) => [P0|Pn0]; case: (altP (Q =P [::])) => [Q0|Qn0].
- exists [::]; last by apply: run => f _; rw P0 Q0.
  by split=> // x /mem_split/orP[/sP|/sQ]; rw ?P0 ?Q0.
- exists Q; last first.
    apply: run => f _; rw P0 /=.
    by move: Qn0; rw -size_eq0 => /negbTE->.
  split=> // x /mem_split/orP[/sP|/sQ] //.
  by rw P0 => H /H; apply: span_of_nil.
- exists P; last first.
    apply: run => f _; rw Q0 /=.
    by move: Pn0; rw -size_eq0 => /negbTE->.
  split=> // x /mem_split/orP[/sP|/sQ] //.
  by rw Q0 => H /H; apply: span_of_nil.
have /andP[_ Q_co] := cbQ.
have [L [cbL sLP sLQ L_pi] [F HF]] :=
  @cbmerge_support [::] P Q cbP Pn0 (coprime_base_positive cbQ) Q_co.
exists L.
  split=> // [x /mem_split/orP[/sP|/sQ] H /H|].
  - exact: span_refine.
  - exact: span_refine.
  apply: sub_all L_pi => y; apply: pnat_trans.
  by rw pnatM !all_pnat_prod.
exists (maxn F (maxn F1 F2)).+1 => -[|f] //; rw ltnS !geq_max.
case/and3P=> /HF E /H1 E1 /H2 E2.
rw /= subn_eq0 leqNgt lt_ft /= Em Em1 E1 /= E2 /=.
by move: Pn0 Qn0; rw -!size_eq0 => -> ->.
Qed.

(** X16. array_cb returns on every nonempty input array, zeros included: a
    zero slot is skipped, and the output B is a coprime base of the nonzero
    slots.  Its elements are >= 2 and pairwise coprime, every nonzero
    element of S is a product of powers of them, each of them divides a
    power of the product of the nonzero slots, and B is empty exactly when
    every slot is 0 or 1. *)
Theorem array_cb_any_input S : S != [::] ->
  exists2 B, returns (fun f => array_cb f [::] S) B
    & [/\ all (leq 2) B, pairwise coprime B,
          forall s, s \in S -> s != 0 ->
            exists2 es, size es = size B
                      & s = \prod_(be <- zip B es) be.1 ^ be.2,
          forall x, x \in B ->
            exists k, x %| (\prod_(y <- nonzero S) y) ^ k
        & (B == [::]) = all (fun s => s <= 1) S].
Proof.
move=> Sn0; have S_gt0 : 0 < size S by rw lt0n size_eq0.
have [|B] := @cb_gen S 0 (size S - 1) (leq0n _); first by rw subn1 ltn_predL.
rw slice_all => -[/andP[B_ge2 B_co] sB B_pi] retB.
have N_gt0 : 0 < \prod_(y <- nonzero S) y.
  exact/prodn_seq_gt0/nonzero_positive.
exists B; first by rw /array_cb S_gt0.
split=> // [s sS sn0|x xB|].
- exact/span_exponents/sB.
- by exists x; apply: pnat_dvd_exp => //; apply: (allP B_pi).
apply/eqP/allP => [B0 s sS|S_le1].
  by case: s sS => // s /sB; rw B0 => /(_ isT) /span_nil->.
have EN : \prod_(y <- nonzero S) y = 1.
  rw big_seq big1 // => y; rw mem_filter => /andP[yn0 /S_le1].
  by case: y yn0 => [|[|y]].
case: (B) B_ge2 B_pi => // x B'; rw EN /= => /andP[x_ge2 _] /andP[/pnat_pi1 Ex _].
by rw Ex in x_ge2.
Qed.

Lemma array_cb_any_input_witness :
  exists2 B, returns (fun f => array_cb f [::] [:: 6; 0; 4; 1]) B
    & [/\ all (leq 2) B, pairwise coprime B,
          forall s, s \in [:: 6; 0; 4; 1] -> s != 0 ->
            exists2 es, size es = size B
                      & s = \prod_(be <- zip B es) be.1 ^ be.2,
          forall x, x \in B ->
            exists k, x %| (\prod_(y <- nonzero [:: 6; 0; 4; 1]) y) ^ k
        & (B == [::]) = all (fun s => s <= 1) [:: 6; 0; 4; 1]].
Proof. exact: (@array_cb_any_input [:: 6; 0; 4; 1] isT). Defined.

(* --------------------------------------------------------------------- *)
(* find_factor on any base                                                *)
(* --------------------------------------------------------------------- *)

Lemma find_factor_any P : all (leq 2) P ->
  forall from to, from <= to -> to < size P ->
  forall a a0 out, 0 < a ->
  exists2 res, returns (fun f => find_factor f out a0 a P from to) res
    & (res.2 -> res.1 = out /\ all (pred1 a0) (slice from to P))
      /\ (res.1 = out
          \/ exists2 i, from <= i <= to
               & res = (out ++ [:: a0; nth 0 P i; a0 %/ nth 0 P i], false)).
Proof.
move=> P_ge2 from to le_ft.
have P_pos : positive P by apply: sub_all P_ge2 => x; apply: ltnW.
elim/range_ind: le_ft => [i|{}from {}to mid lt_ft Em Em1].
  move=> lt_i a a0 out a_gt0; rw slice1 //.
  have p_gt1 : 1 < nth 0 P i by apply: (allP P_ge2); apply: mem_nth.
  have [m [c [red _ _]]] := reduce_spec p_gt1 a_gt0.
  have := find_factor_leaf out a0 lt_i red; set res := (X in returns _ X).
  move=> ret; exists res => //; rw /res /=.
  case: ifP => _; first by split=> //; left.
  case: ifP => [_|/negbFE Ea]; last by rw /= eq_sym Ea; split=> //; left.
  by split=> //; right; exists i; rw ?leqnn.
move=> le_fm lt_mt IH1 IH2 lt_t a a0 out a_gt0.
have lt_m := ltn_trans lt_mt lt_t.
have y_gt0 : 0 < \prod_(x <- slice from mid P) x.
  by apply: prodn_seq_gt0; apply: all_slice.
have [Fy Hy] := prod_spec le_fm lt_m.
have [Fi Hi] := ppi_ppo_spec a_gt0 y_gt0.
set y := \prod_(x <- slice from mid P) x in y_gt0 Hy Hi.
have [[out1 r1] [F1 H1] /= [T1 A1]] :=
  IH1 lt_m a`_\pi(y) a0 out (part_gt0 _ _).
case: r1 H1 T1 A1 => H1 T1 A1; last first.
  exists (out1, false) => /=.
    exists (maxn (maxn Fy Fi) F1).+1 => -[|f] //.
    rw ltnS !geq_max => /andP[/andP[/Hy Ey /Hi Ei] /H1 E1].
    by rw /= subn_eq0 leqNgt lt_ft /= Em Em1 Ey /= Ei /= E1.
  split=> //; case: A1 => [|[i /andP[le_i le_im] E]]; first by left.
  by right; exists i => //; rw le_i (leq_trans le_im (ltnW lt_mt)).
have [Eout1 all1] := T1 isT.
have [[out2 r2] [F2 H2] /= [T2 A2]] :=
  IH2 lt_t a`_\pi(y)^' a0 out1 (part_gt0 _ _).
exists (out2, r2) => /=.
  exists (maxn (maxn Fy Fi) (maxn F1 F2)).+1 => -[|f] //.
  rw ltnS !geq_max => /andP[/andP[/Hy Ey /Hi Ei] /andP[/H1 E1 /H2 E2]].
  rw /= subn_eq0 leqNgt lt_ft /= Em Em1 Ey /= Ei /= E1 /= E2 /=.
  by case: (r2).
split.
  move=> /T2[-> all2]; split=> //.
  by rw (slice_cat _ le_fm lt_mt) all_cat all1.
case: A2 => [->|[i /andP[le_i le_it] E]]; first by left.
right; exists i; first by rw le_it (leq_trans le_fm (ltnW le_i)).
by rw E Eout1.
Qed.

(** X17. find_factor returns for every positive a over any base of integers
    >= 2, coprime or not.  It appends nothing or exactly one triple
    (a0, P[i], a0 / P[i]) for a slot i of its range, the latter only with
    the result false; and the result true, which comes with nothing
    appended, is possible only when every base element of the range equals
    a0. *)
Theorem find_factor_at_most_one_triple P from to a a0 out :
  all (leq 2) P -> from <= to -> to < size P -> 0 < a ->
  exists2 res, returns (fun f => find_factor f out a0 a P from to) res
    & (res.2 -> res.1 = out /\ all (pred1 a0) (slice from to P))
      /\ (res.1 = out
          \/ exists2 i, from <= i <= to
               & res = (out ++ [:: a0; nth 0 P i; a0 %/ nth 0 P i], false)).
Proof. by move=> P_ge2 le_ft lt_t; apply: find_factor_any. Qed.

Lemma find_factor_at_most_one_triple_witness :
  exists2 res,
    returns (fun f => find_factor f [::] 12 12 [:: 4; 6; 5] 0 2) res
    & (res.2 -> res.1 = [::] /\ all (pred1 12) (slice 0 2 [:: 4; 6; 5]))
      /\ (res.1 = [::]
          \/ exists2 i, 0 <= i <= 2
               & res = ([::] ++ [:: 12; nth 0 [:: 4; 6; 5] i;
                                 12 %/ nth 0 [:: 4; 6; 5] i], false)).
Proof.
exact: (@find_factor_at_most_one_triple [:: 4; 6; 5] 0 2 12 12 [::]
          isT isT isT isT).
Defined.

(* --------------------------------------------------------------------- *)
(* find_factors                                                           *)
(* --------------------------------------------------------------------- *)

Lemma coprime_base_filter (a : pred nat) P :
  coprime_base P -> coprime_base (filter a P).
Proof.
case/andP=> P_ge2 P_co; rw /coprime_base pairwise_filter // andbT.
by apply/allP => x; rw mem_filter => /andP[_ /(allP P_ge2)].
Qed.

Lemma partn_swap (pi rho : nat_pred) n : n`_pi`_rho = n`_rho`_pi.
Proof. by rw -!partnI; apply: eq_partn => q; rw !inE andbC. Qed.

(* On the primes of one of its elements, the product of a coprime base is
   that element. *)
Lemma prod_part_base P p : coprime_base P -> p \in P ->
  (\prod_(x <- P) x)`_\pi(p) = p.
Proof.
move=> cbP; have P_pos := coprime_base_positive cbP.
case/andP: cbP => _; elim: P P_pos => //= q P IH /andP[q_gt0 P_pos].
case/andP=> co_q co_P pP.
have X_gt0 := prodn_seq_gt0 P_pos.
rw big_cons partnM //; have [Ep|neq] := eqVneq p q.
  rw Ep partn_pi // part_p'nat ?muln1 // -coprime_pi' //.
  by rw coprime_prodr.
move: pP; rw inE (negbTE neq) /= => pP.
have p_gt0 : 0 < p by apply: (allP P_pos).
rw IH // part_p'nat ?mul1n // -coprime_pi' //.
by rw coprime_sym; apply: (allP co_q).
Qed.

(* An element of a coprime base that does not divide a product of powers of
   the base is coprime to it. *)
Lemma span_not_dvd P p y : coprime_base P -> p \in P -> span P y ->
  ~~ (p %| y) -> coprime p y.
Proof.
move=> cbP pP; elim=> [|u v uP _ IH ndv]; first by rw coprimen1.
rw coprimeMr IH ?andbT.
  by apply: contra ndv => /dvdn_mull; apply.
apply: (coprime_base_mem cbP pP uP); apply: contraNneq ndv => ->.
exact: dvdn_mulr.
Qed.

Lemma part_base_eq P p y : coprime_base P -> p \in P -> span P y ->
  (p`_\pi(y) == p) = (p %| y).
Proof.
move=> cbP pP sy; have P_pos := coprime_base_positive cbP.
have p_gt0 : 0 < p by apply: (allP P_pos).
have p_gt1 : 1 < p by case/andP: cbP => /allP/(_ p pP).
have y_gt0 := span_gt0 P_pos sy.
apply/eqP/idP => [Ep|p_y]; last first.
  by apply: part_pnat_id; apply: pnat_pi_dvd p_y y_gt0 _; apply: pnat_pi.
apply: contraT => /(span_not_dvd cbP pP sy) co_py.
have : p`_\pi(y) = 1.
  by apply: part_p'nat; rw -coprime_pi' // coprime_sym.
by rw Ep => E1; rw E1 in p_gt1.
Qed.

Lemma span_filter_self P s : span P s -> span (filter (fun p => p %| s) P) s.
Proof.
elim=> [|u v uP _ IH]; first exact: span_one.
apply: span_mul; first by rw mem_filter uP dvdn_mulr.
apply: span_sub IH => z; rw !mem_filter => /andP[z_v ->].
by rw dvdn_mull.
Qed.

Lemma span_filter_dvd P s y : span P s -> s %| y ->
  span (filter (fun p => p %| y) P) s.
Proof.
move=> /span_filter_self ss s_y; apply: span_sub ss => z.
by rw !mem_filter => /andP[z_s ->]; rw (dvdn_trans z_s).
Qed.

Lemma factor_triple_filter P s y : s %| y ->
  factor_triple (filter (fun p => p %| y) P) s = factor_triple P s.
Proof.
move=> s_y; rw /factor_triple -filter_predI.
suff -> : filter (predI (fun p => p %| s) (fun p => p %| y)) P
          = filter (fun p => p %| s) P by [].
apply: eq_filter => z /=; case z_s: (z %| s) => //=.
exact: dvdn_trans s_y.
Qed.

(* The loop that keeps the slots of p left unchanged by the split. *)
Lemma find_factors_liveE (g : nat -> nat) p0 p q :
  find_factors_live [seq g x | x <- p0 ++ p] (p0 ++ p) (size p0) (size p) q
  = Ret (q ++ filter (fun x => g x == x) p).
Proof.
elim: p p0 q => [|x p IH] p0 q /=; first by rw cats0.
rw /array_get size_map size_cat /= -addSnnS ltn_addr //=.
rw (nth_map 0) ?size_cat /= -?addSnnS ?ltn_addr //.
rw nth_cat ltnn subnn /=.
have := IH (rcons p0 x) (if g x == x then array_add q x else q).
rw cat_rcons size_rcons => ->.
by case: ifP => _ //; rw /array_add -cats1 -catA.
Qed.

(* What find_factors computes before it branches. *)
Lemma find_factors_step S from to p : from <= to -> to < size S ->
  coprime_base p -> span p (\prod_(x <- slice from to S) x) ->
  exists F, forall f out, F <= f ->
    find_factors f.+1 out S from to p
    = let y := \prod_(x <- slice from to S) x in
      let q := filter (fun x => x %| y) p in
      if to - from == 0 then
        '(out', _) <- array_find_factor f out y q ;; Ret out'
      else
        out1 <- find_factors f out S from
                  (to - (to - from) %/ 2 - 1) q ;;
        find_factors f out1 S (to - (to - from) %/ 2) to q.
Proof.
move=> le_ft lt_t cbp sy; have p_pos := coprime_base_positive cbp.
set y := \prod_(x <- slice from to S) x in sy *.
have x_gt0 := prodn_seq_gt0 p_pos; have y_gt0 := span_gt0 p_pos sy.
have [Fx Hx] := array_prod_spec p.
have [Fy Hy] := prod_spec le_ft lt_t.
have [Fz Hz] := ppi_spec x_gt0 y_gt0.
have [Fd Hd] := @array_split_spec p (\prod_(x <- p) x)`_\pi(y) [::] p_pos
                  (part_gt0 _ _).
have Ed : [seq (\prod_(x <- p) x)`_\pi(y)`_\pi(x) | x <- p]
          = [seq x`_\pi(y) | x <- p ++ [::]]%SEQ.
  rw cats0; apply/eq_in_map => x xp.
  by rw partn_swap prod_part_base.
have Eq : filter (fun x => x`_\pi(y) == x) p = filter (fun x => x %| y) p.
  by apply: eq_in_filter => x xp; apply: part_base_eq sy.
exists (maxn (maxn Fx Fy) (maxn Fz Fd)) => f out.
rw !geq_max => /andP[/andP[/Hx Ex /Hy Ey] /andP[/Hz Ez /Hd Ed']].
rw /= Ex /= Ey /= Ez /= Ed' /= Ed.
have := @find_factors_liveE (fun x => x`_\pi(y)) [::] p [::].
by rw /= cats0 => ->; rw /= Eq.
Qed.

(* The leaf of find_factors: one call of array_find_factor on the base
   elements that divide s. *)
Lemma find_factors_leaf p s out : coprime_base p -> span p s ->
  exists r,
    returns (fun f => array_find_factor f out s (filter (fun x => x %| s) p))
            (out ++ factor_triple p s, r).
Proof.
move=> cbp ss; set q := filter _ p.
have cbq : coprime_base q by apply: coprime_base_filter.
have sq : span q s by apply: span_filter_self.
have [q0|qn0] := eqVneq q [::].
  exists false; exists 0 => f _.
  by rw /array_find_factor /factor_triple -/q q0 /= cats0.
have := array_find_factor_span out cbq qn0 sq.
set res := ff_result _ _ _ _ _ => ret.
suff E : res.1 = out ++ factor_triple p s.
  by exists res.2; rw -E; case: (res) ret.
rw /res /ff_result /factor_triple -/q.
have q_dvd x : x \in q -> x %| s by rw mem_filter => /andP[].
case: (q) qn0 cbq q_dvd => // q0 [|q1 q'] _ cbq q_dvd /=.
  by case: ifP => //=; rw cats0.
case: ifP => //= /negbFE/eqP Es; exfalso.
have := q_dvd q1; rw !inE eqxx orbT Es => /(_ isT) /gcdn_idPl q1_q0.
case/andP: cbq => /= /and3P[_ q1_ge2 _] /andP[/andP[co _] _].
by move: co q1_ge2; rw /coprime gcdnC q1_q0 => /eqP->.
Qed.

Lemma find_factors_spec S from to : from <= to -> to < size S ->
  forall p out, coprime_base p ->
    (forall s, s \in slice from to S -> span p s) ->
  returns (fun f => find_factors f out S from to p)
    (out ++ flatten [seq factor_triple p s | s <- slice from to S]).
Proof.
move=> le_ft; elim/range_ind: le_ft => [i|{}from {}to mid lt_ft Em Em1].
  move=> lt_i p out cbp sp.
  have [F HF] := find_factors_step (leqnn i) lt_i cbp (span_prod sp).
  have ss : span p (nth 0 S i) by apply: sp; rw slice1 // inE.
  have [r [Fl Hl]] := find_factors_leaf out cbp ss.
  exists (maxn F Fl).+1 => -[|f] //; rw ltnS geq_max => /andP[le_F /Hl El].
  by rw HF // slice1 // big_seq1 subnn /= El /= cats0.
move=> le_fm lt_mt IH1 IH2 lt_t p out cbp sp.
have le_ft := ltnW lt_ft.
have [F HF] := find_factors_step le_ft lt_t cbp (span_prod sp).
set y := \prod_(x <- slice from to S) x in HF.
set q := filter (fun x => x %| y) p.
have cbq : coprime_base q by apply: coprime_base_filter.
have dvd_y s : s \in slice from to S -> s %| y by apply: dvdn_prod_mem.
have sq s : s \in slice from to S -> span q s.
  by move=> sS; apply: span_filter_dvd (sp s sS) (dvd_y s sS).
have Eslice := slice_cat S le_fm lt_mt.
have in1 s : s \in slice from mid S -> s \in slice from to S.
  by rw Eslice mem_cat => ->.
have in2 s : s \in slice mid.+1 to S -> s \in slice from to S.
  by rw Eslice mem_cat => ->; rw orbT.
have [F1 H1] := IH1 (ltn_trans lt_mt lt_t) q out cbq
                  (fun s sS => sq s (in1 s sS)).
have [F2 H2] := IH2 lt_t q
  (out ++ flatten [seq factor_triple q s | s <- slice from mid S]) cbq
  (fun s sS => sq s (in2 s sS)).
have Et (L : seq nat) : {subset L <= slice from to S} ->
    [seq factor_triple q s | s <- L] = [seq factor_triple p s | s <- L].
  by move=> sub; apply/eq_in_map => s /sub/dvd_y; apply: factor_triple_filter.
exists (maxn F (maxn F1 F2)).+1 => -[|f] //.
rw ltnS !geq_max => /and3P[le_F /H1 E1 /H2 E2].
rw HF // subn_eq0 leqNgt lt_ft /= Em Em1 -/y -/q E1 /= E2.
by rw Eslice map_cat flatten_cat catA !Et.
Qed.

Lemma array_find_factors_spec S P out : coprime_base P ->
  (forall s, s \in S -> span P s) ->
  returns (fun f => array_find_factors f out S P)
    (out ++ flatten [seq factor_triple P s | s <- S]).
Proof.
move=> cbP sP; rw /array_find_factors; case: ltnP => [S_gt0|].
  rw -[in X in returns _ (_ ++ flatten (map _ X))](slice_all S).
  apply: find_factors_spec => //; first by rw subn1 ltn_predL.
  by rw slice_all.
by rw leqn0 size_eq0 => /eqP->; exists 0 => f _; rw /= cats0.
Qed.

(* Over a coprime base, every product of powers that is neither 1 nor a
   base element gets a triple that names a proper factor. *)
Lemma factor_triple_spec P s : coprime_base P -> span P s ->
  if (s == 1) || (s \in P) then factor_triple P s = [::]
  else exists p,
    [/\ p \in P, factor_triple P s = [:: s; p; s %/ p],
        p * (s %/ p) = s, 1 < p & p < s].
Proof.
move=> cbP sP; have /andP[/allP P_ge2 _] := cbP.
have P_pos := coprime_base_positive cbP; have s_gt0 := span_gt0 P_pos sP.
have := span_filter_self sP; rw /factor_triple.
have q_in x : x \in filter (fun p => p %| s) P -> (x \in P) && (x %| s).
  by rw mem_filter andbC.
case: (filter _ P) q_in => [_ /span_nil->|p q q_in _] //.
have /andP[pP p_s] : (p \in P) && (p %| s) by apply: q_in; rw inE eqxx.
have p_gt1 := P_ge2 p pP.
have sn1 : (s == 1) = false.
  by apply/eqP => s1; move: p_s p_gt1; rw s1 dvdn1 => /eqP->.
rw sn1 /=; have [Es|neq] := eqVneq s p; first by rw Es pP.
case: ifP => [sP'|_].
  have : coprime s p by apply: (coprime_base_mem cbP).
  move/gcdn_idPr: p_s; rw /coprime => -> /eqP Ep.
  by rw Ep in p_gt1.
exists p; split=> //; first by rw mulnC divnK.
by rw ltn_neqAle eq_sym neq dvdn_leq.
Qed.

(** X18. Over a list P of pairwise coprime integers >= 2 and an array S of
    products of powers of elements of P, find_factors returns and appends,
    for the elements s of S in their order, nothing when s is 1 or an
    element of P, and otherwise exactly the triple (s, p, s / p) where p is
    the first element of P that divides s; p is then a proper factor of s:
    p * (s / p) = s and 1 < p < s. *)
Theorem find_factors_on_base S P out : coprime_base P ->
  (forall s, s \in S -> span P s) ->
  returns (fun f => array_find_factors f out S P)
          (out ++ flatten [seq factor_triple P s | s <- S])
  /\ forall s, s \in S ->
       if (s == 1) || (s \in P) then factor_triple P s = [::]
       else exists p,
         [/\ p \in P, factor_triple P s = [:: s; p; s %/ p],
             p * (s %/ p) = s, 1 < p & p < s].
Proof.
move=> cbP sP; split; first exact: array_find_factors_spec.
by move=> s /sP; apply: factor_triple_spec.
Qed.

Lemma find_factors_on_base_witness :
  returns (fun f => array_find_factors f [::] [:: 12; 3; 1] [:: 2; 3])
          ([::] ++ flatten [seq factor_triple [:: 2; 3] s | s <- [:: 12; 3; 1]])
  /\ forall s, s \in [:: 12; 3; 1] ->
       if (s == 1) || (s \in [:: 2; 3]) then factor_triple [:: 2; 3] s = [::]
       else exists p,
         [/\ p \in [:: 2; 3], factor_triple [:: 2; 3] s = [:: s; p; s %/ p],
             p * (s %/ p) = s, 1 < p & p < s].
Proof.
apply: (@find_factors_on_base [:: 12; 3; 1] [:: 2; 3] [::] isT) => s.
rw !inE => /or3P[] /eqP->.
- exact: (@span_mul [:: 2; 3] 2 6 isT
            (@span_mul [:: 2; 3] 2 3 isT
               (@span_mul [:: 2; 3] 3 1 isT (span_one _)))).
- exact: (@span_mul [:: 2; 3] 3 1 isT (span_one _)).
- exact: span_one.
Defined.



(* --------------------------------------------------------------------- *)
(* find_factors on any base                                               *)
(* --------------------------------------------------------------------- *)

Lemma all2_cat_app (T U : Type) (r : T -> U -> bool) s1 t1 s2 t2 :
  all2 r s1 t1 -> all2 r s2 t2 -> all2 r (s1 ++ s2) (t1 ++ t2).
Proof.
elim: s1 t1 => [|x s1 IH] [|y t1] //= /andP[-> /IH H] /H.
by [].
Qed.

Lemma all2_sub (T U : Type) (r r' : T -> U -> bool) s t :
  (forall x y, r x y -> r' x y) -> all2 r s t -> all2 r' s t.
Proof.
move=> sub; elim: s t => [|x s IH] [|y t] //= /andP[/sub-> /IH].
by [].
Qed.

Lemma triple_of_sub q p s t : {subset q <= p} ->
  triple_of q s t -> triple_of p s t.
Proof.
move=> sub /orP[t0|/hasP[x /sub xp Et]]; first by rw /triple_of t0.
by apply/orP; right; apply/hasP; exists x.
Qed.

Lemma find_factors_step_any S from to p : from <= to -> to < size S ->
  all (leq 2) p -> positive S ->
  exists2 q, {subset q <= p}
    & exists F, forall f out, F <= f ->
        find_factors f.+1 out S from to p
        = let y := \prod_(x <- slice from to S) x in
          if to - from == 0 then
            '(out', _) <- array_find_factor f out y q ;; Ret out'
          else
            out1 <- find_factors f out S from
                      (to - (to - from) %/ 2 - 1) q ;;
            find_factors f out1 S (to - (to - from) %/ 2) to q.
Proof.
move=> le_ft lt_t p_ge2 S_pos.
have p_pos : positive p by apply: sub_all p_ge2 => x; apply: ltnW.
set y := \prod_(x <- slice from to S) x.
have x_gt0 := prodn_seq_gt0 p_pos.
have y_gt0 : 0 < y by apply: prodn_seq_gt0; apply: all_slice.
have [Fx Hx] := array_prod_spec p.
have [Fy Hy] := prod_spec le_ft lt_t.
have [Fz Hz] := ppi_spec x_gt0 y_gt0.
set z := (\prod_(x <- p) x)`_\pi(y) in Hz.
have [Fd Hd] := @array_split_spec p z [::] p_pos (part_gt0 _ _).
exists (filter (fun x => z`_\pi(x) == x) p).
  by move=> x; rw mem_filter => /andP[].
exists (maxn (maxn Fx Fy) (maxn Fz Fd)) => f out.
rw !geq_max => /andP[/andP[/Hx Ex /Hy Ey] /andP[/Hz Ez /Hd Ed]].
rw /= Ex /= Ey /= Ez /= Ed /=.
have := @find_factors_liveE (fun x => z`_\pi(x)) [::] p [::].
by rw /= => ->.
Qed.

Lemma find_factors_any S from to : positive S -> from <= to -> to < size S ->
  forall p out, all (leq 2) p ->
  exists2 ts,
    returns (fun f => find_factors f out S from to p) (out ++ flatten ts)
    & all2 (triple_of p) (slice from to S) ts.
Proof.
move=> S_pos le_ft; elim/range_ind: le_ft => [i|{}from {}to mid lt_ft Em Em1].
  move=> lt_i p out p_ge2.
  have [q sub [F HF]] := find_factors_step_any (leqnn i) lt_i p_ge2 S_pos.
  have q_ge2 : all (leq 2) q by apply/allP => x /sub; apply: (allP p_ge2).
  have y_gt0 : 0 < nth 0 S i by apply: (allP S_pos); apply: mem_nth.
  rw slice1 //; set y := nth 0 S i in y_gt0 *.
  have [q0|qn0] := eqVneq q [::].
    exists [:: [::]]; last by rw /= /triple_of.
    exists F.+1 => -[|f] //; rw ltnS => le_F.
    by rw HF // slice1 // big_seq1 subnn q0 /= cats0.
  have q_gt0 : 0 < size q by rw lt0n size_eq0.
  have lt_q : size q - 1 < size q by rw subn1 ltn_predL.
  have [[out' r] [Fr Hr] /= [_ A]] :=
    find_factor_any q_ge2 (leq0n _) lt_q y out y_gt0.
  have run ts : out' = out ++ flatten ts ->
      returns (fun f => find_factors f out S i i p) (out ++ flatten ts).
    move=> Eout; exists (maxn F Fr).+1 => -[|f] //.
    rw ltnS geq_max => /andP[le_F /Hr Er].
    by rw HF // slice1 // big_seq1 subnn /= /array_find_factor q_gt0 Er /= Eout.
  case: A => [Eout|[j le_j [Eout _]]].
    by exists [:: [::]]; [apply: run; rw /= cats0 | rw /= /triple_of].
  exists [:: [:: y; nth 0 q j; y %/ nth 0 q j]].
    by apply: run; rw Eout.
  rw /= andbT; apply/orP; right; apply/hasP; exists (nth 0 q j) => //.
  by apply/sub/mem_nth; apply: leq_ltn_trans le_j lt_q.
move=> le_fm lt_mt IH1 IH2 lt_t p out p_ge2.
have [q sub [F HF]] := find_factors_step_any (ltnW lt_ft) lt_t p_ge2 S_pos.
have q_ge2 : all (leq 2) q by apply/allP => x /sub; apply: (allP p_ge2).
have [ts1 [F1 H1] all1] := IH1 (ltn_trans lt_mt lt_t) q out q_ge2.
have [ts2 [F2 H2] all2] := IH2 lt_t q (out ++ flatten ts1) q_ge2.
exists (ts1 ++ ts2).
  exists (maxn F (maxn F1 F2)).+1 => -[|f] //.
  rw ltnS !geq_max => /and3P[le_F /H1 E1 /H2 E2].
  rw HF // subn_eq0 leqNgt lt_ft /= Em Em1 E1 /= E2.
  by rw flatten_cat catA.
rw (slice_cat _ le_fm lt_mt); apply: all2_cat_app.
  by apply: all2_sub all1 => s t; apply: triple_of_sub.
by apply: all2_sub all2 => s t; apply: triple_of_sub.
Qed.

(** X20. array_find_factors returns on every array S of positive integers
    over any base P of integers >= 2, coprime or not: it keeps what the
    output array held and appends, for the elements s of S in their order,
    nothing or exactly one triple (s, p, s / p) with p an element of P. *)
Theorem find_factors_any_base S P out : all (leq 2) P -> positive S ->
  exists2 ts,
    returns (fun f => array_find_factors f out S P) (out ++ flatten ts)
    & all2 (triple_of P) S ts.
Proof.
move=> P_ge2 S_pos; rw /array_find_factors; case: ltnP => [S_gt0|].
  have [|ts ret all_ts] :=
    @find_factors_any S 0 (size S - 1) S_pos (leq0n _) _ P out P_ge2.
    by rw subn1 ltn_predL.
  by exists ts => //; rw -[S in all2 _ S _]slice_all.
rw leqn0 size_eq0 => /eqP->; exists [::] => //.
by exists 0 => f _; rw /= cats0.
Qed.

Lemma find_factors_any_base_witness :
  exists2 ts,
    returns (fun f => array_find_factors f [::] [:: 10; 6] [:: 4; 6])
            ([::] ++ flatten ts)
    & all2 (triple_of [:: 4; 6]) [:: 10; 6] ts.
Proof. exact: (@find_factors_any_base [:: 10; 6] [:: 4; 6] [::] isT isT). Defined.

(* --------------------------------------------------------------------- *)
(* The shortcuts ppi_ppo and ppi                                          *)
(* --------------------------------------------------------------------- *)

(** X21. On positive operands the shortcuts ppi_ppo and ppi hand back the
    parts computed by gcd_ppi_ppo, and these parts behave as projections:
    ppi is multiplicative in its first operand, ppi(a, b) is left unchanged
    by a second pass (its ppo is then 1), and ppo(a, b) has no part on the
    primes of b (its ppi is 1). *)
Theorem ppi_ppo_shortcuts a a' b : 0 < a -> 0 < a' -> 0 < b ->
  exists g i o i',
    [/\ returns (fun f => gcd_ppi_ppo f a b) (g, i, o),
        returns (fun f => ppi_ppo f a b) (i, o)
        /\ returns (fun f => ppi f a b) i,
        returns (fun f => ppi f a' b) i'
        /\ returns (fun f => ppi f (a * a') b) (i * i'),
        returns (fun f => ppi_ppo f i b) (i, 1)
      & returns (fun f => ppi_ppo f o b) (1, o)].
Proof.
move=> a_gt0 a'_gt0 b_gt0.
exists (gcdn a b), a`_\pi(b), a`_\pi(b)^', a'`_\pi(b); split.
- exact: gcd_ppi_ppo_spec.
- by split; [apply: ppi_ppo_spec | apply: ppi_spec].
- split; first exact: ppi_spec.
  by rw -partnM //; apply: ppi_spec => //; rw muln_gt0 a_gt0.
- have E1 : a`_\pi(b)`_\pi(b) = a`_\pi(b).
    by apply: part_pnat_id; apply: part_pnat.
  have E2 : a`_\pi(b)`_\pi(b)^' = 1.
    by apply: part_p'nat; rw pnatNK; apply: part_pnat.
  by have := @ppi_ppo_spec a`_\pi(b) b (part_gt0 _ _) b_gt0; rw E1 E2.
- have E1 : a`_\pi(b)^'`_\pi(b) = 1.
    by apply: part_p'nat; apply: part_pnat.
  have E2 : a`_\pi(b)^'`_\pi(b)^' = a`_\pi(b)^'.
    by apply: part_pnat_id; apply: part_pnat.
  by have := @ppi_ppo_spec a`_\pi(b)^' b (part_gt0 _ _) b_gt0; rw E1 E2.
Qed.

Lemma ppi_ppo_shortcuts_witness :
  exists g i o i',
    [/\ returns (fun f => gcd_ppi_ppo f 12 10) (g, i, o),
        returns (fun f => ppi_ppo f 12 10) (i, o)
        /\ returns (fun f => ppi f 12 10) i,
        returns (fun f => ppi f 45 10) i'
        /\ returns (fun f => ppi f (12 * 45) 10) (i * i'),
        returns (fun f => ppi_ppo f i 10) (i, 1)
      & returns (fun f => ppi_ppo f o 10) (1, o)].
Proof. exact: (@ppi_ppo_shortcuts 12 45 10 isT isT isT). Defined.

(* --------------------------------------------------------------------- *)
(* C8: the values that reach an output array                              *)
(* --------------------------------------------------------------------- *)








